(** * Storj core: RPC envelope checks, routing-table hygiene, storage keys
      and the file multiplexer, as a shallow embedding.

    Sources embedded here:
    - [lib/network/index.js]      (Network: rate limiter hook, contact
                                   validation, message verification,
                                   routing-table cleaner)
    - [lib/network/transport.js]  (Transport.send)
    - [lib/bridgeclient.js]       (resolveFileFromPointers and its queue
                                   worker; third unit of transport.js)
    - [lib/storage/adapters/ram.js]
    Not available as source and therefore modelled from the specification
    and the unit tests: [lib/utils.js], [lib/filemuxer.js],
    [lib/storage/adapters/fs.js].  External libraries (kad, ip, bitcore,
    ms, the rate limiter) appear as interfaces. *)

From Stdlib Require Import ZArith String Ascii List Bool Lia DecimalString.
From stdpp Require Import base numbers strings list gmap.

(* ===================================================================== *)
(** ** JavaScript conventions shared by all modules *)
(* ===================================================================== *)

Module Js.

(** A Node-style outcome: what a callback receives ([callback(err)] or
    [callback(null, value)]) or what a constructor does ([throw] or
    return). *)
Inductive result (A : Type) : Type :=
| Ok (a : A)
| Throw (message : string).
Arguments Ok {A} a.
Arguments Throw {A} message.

(** The values an option of [FileMuxer] can hold in the unit tests:
    absent, a number, or a string. *)
Inductive value : Type :=
| Undefined
| Number (n : Z)
| Str (s : string).

(** [typeof v === 'number'] *)
Definition is_number (v : value) : bool :=
  match v with Number _ => true | _ => false end.

(** [process.env.X]: unset, or set to a string.  A string is truthy
    exactly when it is not empty. *)
Definition truthy_env (e : option string) : bool :=
  match e with
  | Some s => negb (String.eqb s "")
  | None => false
  end.

(** [Number.prototype.toString()] on a non-negative integer. *)
Definition toString (n : nat) : string :=
  NilZero.string_of_uint (Nat.to_uint n).

End Js.

(* ===================================================================== *)
(** ** Interfaces of the external collaborators *)
(* ===================================================================== *)

(** The [ip] package: only [ip.isLoopback] matters here. *)
Class IpLib := { isLoopback : string → bool }.

(** bitcore / bitcore-message: compact signatures, public key recovery
    and verification against the address derived from a node id.  The
    signed text is [message.id + nonce], kept as the pair; the nonce is
    absent when the sender left it out. *)
Class CryptoLib := {
  SigObj : Type;
  PubKey : Type;
  fromCompact : string → option SigObj;
  toPublicKey : string * option Z → SigObj → PubKey;
  verify : string → string * option Z → string → bool
}.

(** [lib/network/ratelimiter.js] (absent): the three methods the network
    facade calls, over a limiter state [L]. *)
Class RateLimiterI (L : Type) := {
  isLimited : L → string → bool;
  updateCounter : L → string → L;
  getResetTime : L → Z
}.

(** Constants and ambient values: [lib/version], [constants.NONCE_EXPIRE],
    [process.env.STORJ_ALLOW_LOOPBACK], kad's bucket index of a node id
    relative to our own, and the [ms] formatter. *)
Class Config := {
  version : string;
  NONCE_EXPIRE : Z;
  STORJ_ALLOW_LOOPBACK : option string;
  getBucketIndex : string → nat;
  ms : Z → string
}.

(* ===================================================================== *)
(** ** lib/utils.js *)
(* ===================================================================== *)

Module Utils.

(** A contact as the data model has it. *)
Record Contact : Type := {
  address : string;
  port : Z;
  nodeID : string;
  protocol : string
}.

(** A parsed semantic version, standing in for what the [semver]
    package reads off a version string.  [tag] is everything that
    follows the patch number: empty, or a pre-release / build suffix
    that starts with [-] or [+]. *)
Record SemVer : Type := {
  major : N;
  minor : N;
  patch : N;
  tag : string
}.

Definition is_digit (a : ascii) : bool :=
  (48 <=? nat_of_ascii a)%nat && (nat_of_ascii a <=? 57)%nat.

(** Splits the longest prefix of decimal digits off a string, reading
    its value on the way: [(number of digits, value, rest)]. *)
Fixpoint take_digits (acc : N) (s : string) : nat * N * string :=
  match s with
  | String a r =>
      if is_digit a
      then let '(k, v, rest) :=
             take_digits (10 * acc + N.of_nat (nat_of_ascii a - 48)) r in
           (S k, v, rest)
      else (O, acc, s)
  | EmptyString => (O, acc, EmptyString)
  end.

(** A numeric component: at least one digit. *)
Definition component (s : string) : option (N * string) :=
  let '(k, v, rest) := take_digits 0 s in
  match k with
  | O => None
  | S _ => Some (v, rest)
  end.

Definition valid_tag (t : string) : bool :=
  match t with
  | EmptyString => true
  | String a _ => Ascii.eqb a "-" || Ascii.eqb a "+"
  end.

Definition parse (s : string) : option SemVer :=
  match component s with
  | Some (ma, String "." r1) =>
      match component r1 with
      | Some (mi, String "." r2) =>
          match component r2 with
          | Some (pa, t) =>
              if valid_tag t
              then Some {| major := ma; minor := mi; patch := pa; tag := t |}
              else None
          | None => None
          end
      | _ => None
      end
  | _ => None
  end.

(** Modelled from the spec: the comparison inside
    [utils.isCompatibleVersion], which is absent from the sources.
    "Protocol compatibility is defined as same major AND same minor AND
    same build tag (different patch is allowed, different
    pre-release/build is not)." *)
Definition compatible (l r : SemVer) : bool :=
  N.eqb (major l) (major r) && N.eqb (minor l) (minor r)
  && String.eqb (tag l) (tag r).

(** Modelled from the spec: [utils.isCompatibleVersion] is absent from
    the sources; it compares the remote version with the local one of
    [lib/version].  A string that is not a version is compatible with
    nothing. *)
Definition isCompatibleVersion `{Config} (remote : string) : bool :=
  match parse version, parse remote with
  | Some l, Some r => compatible l r
  | _, _ => false
  end.

(** Modelled from the spec: [utils.isValidContact] is absent from the
    sources.  "Address is invalid (loopback disallowed unless
    explicitly enabled; port must be > 0)."  The second argument is the
    loopback allowance after JavaScript's truthiness coercion. *)
Definition isValidContact `{IpLib} (contact : Contact) (loopback : bool)
  : bool :=
  (0 <? port contact)%Z
  && (if isLoopback (address contact) then loopback else true).

End Utils.

(* ===================================================================== *)
(** ** The kad library: messages and buckets *)
(* ===================================================================== *)

Module Kad.
Import Utils.

(** The part of [params] / [result] the envelope layer reads and
    writes: a millisecond timestamp and a base64 signature, each absent
    until [_signMessage] (or the remote sender) has set it. *)
Record Envelope : Type := {
  nonce : option Z;
  signature : option string
}.

(** The empty object [{}]. *)
Definition empty_object : Envelope :=
  {| nonce := None; signature := None |}.

(** A [kad.Message] is a request [{id, method, params}] or a response
    [{id, result, error}]. *)
Inductive Message : Type :=
| Request (id : string) (method : string) (params : Envelope)
| Response (id : string) (result : Envelope) (error : option string).

Definition isRequest (m : Message) : bool :=
  match m with Request _ _ _ => true | Response _ _ _ => false end.

Definition isResponse (m : Message) : bool :=
  match m with Request _ _ _ => false | Response _ _ _ => true end.

Definition id (m : Message) : string :=
  match m with Request i _ _ => i | Response i _ _ => i end.

(** [message.method]: [undefined] on a response. *)
Definition method (m : Message) : option string :=
  match m with Request _ me _ => Some me | Response _ _ _ => None end.

(** A bucket keeps its contacts in an array. *)
Definition Bucket : Type := list Contact.

(** [Bucket#getContactList] hands out a copy of the array, so that the
    caller's loop is not disturbed by removals. *)
Definition getContactList (b : Bucket) : list Contact := b.

(** [Bucket#indexOf]: position of the first contact with the same node
    id, [None] for [-1]. *)
Fixpoint indexOf (b : Bucket) (c : Contact) : option nat :=
  match b with
  | [] => None
  | x :: r =>
      if String.eqb (nodeID x) (nodeID c) then Some O
      else option_map S (indexOf r c)
  end.

(** [Bucket#removeContact]: splice out the contact found by [indexOf]. *)
Definition removeContact (b : Bucket) (c : Contact) : Bucket :=
  match indexOf b c with
  | Some i => delete i b
  | None => b
  end.

(** [Bucket#addContact] refuses a node id the bucket already holds, so
    a bucket has each node id at most once. *)
Definition bucket_wf (b : Bucket) : Prop := NoDup (nodeID <$> b).

(** [Router#_buckets]: an object from bucket index to bucket, listed in
    the order [for ... in] visits it. *)
Definition Buckets : Type := list (nat * Bucket).

(** [Router#removeContact]: remove from the bucket the contact's node
    id belongs to, when that bucket exists. *)
Definition router_removeContact `{Config} (bs : Buckets) (c : Contact)
  : Buckets :=
  map (λ kb : nat * Bucket,
         if Nat.eqb (fst kb) (getBucketIndex (nodeID c))
         then (fst kb, removeContact (snd kb) c)
         else kb) bs.

End Kad.

(* ===================================================================== *)
(** ** lib/network/transport.js *)
(* ===================================================================== *)

Module Transport.
Import Utils Kad.

(** What a call of [send] leads to: the message goes to the underlying
    HTTP transport, or the callback is called with an error. *)
Inductive SendAction : Type :=
| HttpSend (contact : Contact) (message : Message)
| CallbackError (message : string).

Definition send `{IpLib} `{Config} (contact : Contact) (message : Message)
  : SendAction :=
  if isResponse message then HttpSend contact message
  else if negb (isValidContact contact
                  (negb (negb (Js.truthy_env STORJ_ALLOW_LOOPBACK))))
  then CallbackError "Invalid or forbidden contact address"
  else HttpSend contact message.

End Transport.

(* ===================================================================== *)
(** ** lib/network/index.js *)
(* ===================================================================== *)

Module Network.
Import Utils Kad.

Definition RPC_VALIDATION_EXEMPT : list string :=
  ["PROBE"; "FIND_TUNNEL"; "OPEN_TUNNEL"].

(** [RPC_VALIDATION_EXEMPT.indexOf(message.method) === -1] *)
Definition not_exempt (m : option string) : bool :=
  match m with
  | Some me => negb (existsb (String.eqb me) RPC_VALIDATION_EXEMPT)
  | None => true
  end.

Section WithCollaborators.
Context {L : Type} `{IpLib} `{CryptoLib} `{RateLimiterI L} `{Config}.

(** The fields of the facade these hooks read and write. *)
Record State : Type := {
  _buckets : Buckets;
  _pubkeys : gmap string PubKey;
  _limiter : L
}.

Definition with_buckets (s : State) (b : Buckets) : State :=
  {| _buckets := b; _pubkeys := _pubkeys s; _limiter := _limiter s |}.
Definition with_pubkeys (s : State) (p : gmap string PubKey) : State :=
  {| _buckets := _buckets s; _pubkeys := p; _limiter := _limiter s |}.
Definition with_limiter (s : State) (l : L) : State :=
  {| _buckets := _buckets s; _pubkeys := _pubkeys s; _limiter := l |}.

(** How a [before('receive')] hook ends: it calls [next()] so that the
    following hooks and the protocol handler run, or it answers the
    sender itself and stops the chain. *)
Inductive HookOutcome : Type :=
| Next
| Answered (action : Transport.SendAction).

Definition _checkRateLimiter (s : State) (message : Message)
    (contact : Contact) : State * HookOutcome :=
  if isResponse message then (s, Next)
  else if negb (isLimited (_limiter s) (nodeID contact)) then
    (with_limiter s (updateCounter (_limiter s) (nodeID contact)), Next)
  else
    let timeLeft := ms (getResetTime (_limiter s)) in
    let response :=
      Response (id message) empty_object
        (Some ("Rate limit exceeded, please wait " +:+ timeLeft)) in
    (s, Answered (Transport.send contact response)).

(** The callback of [_validateContact] receives an error or [null]. *)
Definition _validateContact (s : State) (contact : Contact)
  : State * option string :=
  if negb (isCompatibleVersion (protocol contact)) then
    (with_buckets s (router_removeContact (_buckets s) contact),
     Some "Protocol version is incompatible")
  else if negb (isValidContact contact
                  (Js.truthy_env STORJ_ALLOW_LOOPBACK)) then
    (with_buckets s (router_removeContact (_buckets s) contact),
     Some "Invalid contact data supplied")
  else (s, None).

(** [message[messagekey]] with [messagekey] picked by [isRequest]. *)
Definition envelope (message : Message) : Envelope :=
  match message with
  | Request _ _ p => p
  | Response _ r _ => r
  end.

(** [null] when decoding throws, which it does on a missing
    signature. *)
Definition _createSignatureObject (signature : option string)
  : option SigObj :=
  match signature with
  | Some sg => fromCompact sg
  | None => None
  end.

Definition _verifySignature (s : State) (message : Message)
    (nonce : option Z) (signobj : option SigObj) (contact : Contact)
    (signature : option string) : State * option string :=
  match signobj, signature with
  | None, _ | _, None => (s, Some "Invalid signature supplied")
  | Some so, Some signature =>
      let s' :=
        with_pubkeys s
          (<[nodeID contact := toPublicKey (id message, nonce) so]>
             (_pubkeys s)) in
      if negb (verify (nodeID contact) (id message, nonce) signature)
      then (s', Some "Signature verification failed")
      else (s', None)
  end.

(** [Date.now() > (constants.NONCE_EXPIRE + nonce)]; with the nonce
    missing the sum is [NaN] and the comparison is false. *)
Definition expired (now : Z) (nonce : option Z) : bool :=
  match nonce with
  | Some n => (now >? NONCE_EXPIRE + n)%Z
  | None => false
  end.

(** What [_verifyMessage] does once contact validation has let the
    message through: the nonce test, then the signature. *)
Definition check_envelope (now : Z) (s : State) (message : Message)
    (contact : Contact) : State * option string :=
  let nonce := nonce (envelope message) in
  let signature := signature (envelope message) in
  if expired now nonce then (s, Some "Message signature expired")
  else
    _verifySignature s message nonce (_createSignatureObject signature)
      contact signature.

(** [now] is the value of [Date.now()] at the nonce test. *)
Definition _verifyMessage (now : Z) (s : State) (message : Message)
    (contact : Contact) : State * option string :=
  let '(s1, err) := _validateContact s contact in
  match err with
  | Some e =>
      if not_exempt (method message) then (s1, Some e)
      else check_envelope now s1 message contact
  | None => check_envelope now s1 message contact
  end.

Definition is_bad (c : Contact) : bool :=
  let isValidContact :=
    isValidContact c (Js.truthy_env STORJ_ALLOW_LOOPBACK) in
  let isValidProtocol := isCompatibleVersion (protocol c) in
  negb isValidContact || negb isValidProtocol.

Definition good (c : Contact) : bool := negb (is_bad c).

(** Body of the inner [for] loop of [_cleanRoutingTable], on the
    pair (bucket, dropped). *)
Definition clean_step (st : Bucket * list Contact) (c : Contact)
  : Bucket * list Contact :=
  if is_bad c then (removeContact (fst st) c, snd st ++ [c]) else st.

(** Body of the outer [for ... in] loop: one bucket, walked along the
    copy [getContactList] returned. *)
Definition clean_bucket (dropped : list Contact) (bucket : Bucket)
  : Bucket * list Contact :=
  foldl clean_step (bucket, dropped) (getContactList bucket).

Fixpoint clean_buckets (dropped : list Contact) (bs : Buckets)
  : Buckets * list Contact :=
  match bs with
  | [] => ([], dropped)
  | (k, b) :: rest =>
      let '(b', dropped') := clean_bucket dropped b in
      let '(rest', dropped'') := clean_buckets dropped' rest in
      ((k, b') :: rest', dropped'')
  end.

Definition _cleanRoutingTable (s : State) : State * list Contact :=
  let '(bs, dropped) := clean_buckets [] (_buckets s) in
  (with_buckets s bs, dropped).

End WithCollaborators.

End Network.

(* ===================================================================== *)
(** ** lib/storage/adapters/ram.js and fs.js *)
(* ===================================================================== *)

Module JsObject.

(** A plain object made by [{}] and used as a map whose values are
    objects.  Its own properties are a finite map.  Property names that
    are not its own are looked up on the prototype, which is
    [Object.prototype] until an assignment to the property [__proto__]
    installs the assigned value in its place ([replaced]). *)
Record t (V : Type) : Type := {
  own : gmap string V;
  replaced : bool
}.
Arguments own {V} _.
Arguments replaced {V} _.

(** [{}] *)
Definition empty {V : Type} : t V := {| own := ∅; replaced := false |}.

(** The property names of [Object.prototype]; the value of each is an
    object or a function, hence truthy. *)
Definition members : list string :=
  ["constructor"; "__defineGetter__"; "__defineSetter__"; "hasOwnProperty";
   "__lookupGetter__"; "__lookupSetter__"; "isPrototypeOf";
   "propertyIsEnumerable"; "toString"; "valueOf"; "__proto__";
   "toLocaleString"].

(** [obj[key] = v]: an own property, except that [__proto__] is the
    setter of the prototype and makes no own property. *)
Definition set {V : Type} (o : t V) (key : string) (v : V) : t V :=
  if String.eqb key "__proto__" then {| own := own o; replaced := true |}
  else {| own := <[key := v]> (own o); replaced := replaced o |}.

(** [delete obj[key]]: own properties only. *)
Definition remove {V : Type} (o : t V) (key : string) : t V :=
  {| own := delete key (own o); replaced := replaced o |}.

(** [Object.keys(obj)]: the own property names; their order is not
    modelled. *)
Definition keys {V : Type} (o : t V) : list string := elements (dom (own o)).

(** What [obj[key]] finds: an own value; a member of [Object.prototype];
    nothing ([undefined]); or, once the prototype has been replaced,
    whatever the installed object has under that name, which this model
    does not follow ([Unknown]). *)
Inductive found (V : Type) : Type :=
| Own (v : V)
| Inherited (member : string)
| Missing
| Unknown.
Arguments Own {V} v.
Arguments Inherited {V} member.
Arguments Missing {V}.
Arguments Unknown {V}.

Definition get {V : Type} (o : t V) (key : string) : found V :=
  match own o !! key with
  | Some v => Own v
  | None =>
      if replaced o then Unknown
      else if bool_decide (key ∈ members) then Inherited key
      else Missing
  end.

End JsObject.

Module Storage.

Definition is_hex (a : ascii) : bool :=
  let n := nat_of_ascii a in
  ((48 <=? n)%nat && (n <=? 57)%nat)
  || ((97 <=? n)%nat && (n <=? 102)%nat)
  || ((65 <=? n)%nat && (n <=? 70)%nat).

Fixpoint all_hex (s : string) : bool :=
  match s with
  | EmptyString => true
  | String a r => is_hex a && all_hex r
  end.

(** The key pattern of the spec: forty hexadecimal characters (the hex
    form of a RIPEMD160 digest). *)
Definition is_key (s : string) : bool :=
  Nat.eqb (String.length s) 40 && all_hex s.

(** The object a lookup in [_items] yields: an item that was put (named
    by its identity), or the member of [Object.prototype] of that
    name. *)
Inductive Ref (Item : Type) : Type :=
| Stored (item : Item)
| Builtin (member : string).
Arguments Stored {Item} item.
Arguments Builtin {Item} member.

Section RAM.
(** [Item] is the identity of a [StorageItem] object, [Shard] a
    buffer. *)
Context {Item Shard : Type}.

Record RAMStorageAdapter : Type := {
  _items : JsObject.t Item;
  _shards : JsObject.t Shard
}.

(** The constructor: two empty objects. *)
Definition create : RAMStorageAdapter :=
  {| _items := JsObject.empty; _shards := JsObject.empty |}.

(** [_peek]: the object [new StorageItem(...)] is given, or the error;
    [None] where the lookup leaves the model. *)
Definition _peek (a : RAMStorageAdapter) (key : string)
  : option (Js.result (Ref Item)) :=
  match JsObject.get (_items a) key with
  | JsObject.Own item => Some (Js.Ok (Stored item))
  | JsObject.Inherited member => Some (Js.Ok (Builtin member))
  | JsObject.Missing => Some (Js.Throw "Shard data not found")
  | JsObject.Unknown => None
  end.

Definition _put (a : RAMStorageAdapter) (key : string) (item : Item)
  : RAMStorageAdapter :=
  {| _items := JsObject.set (_items a) key item; _shards := _shards a |}.

Definition _del (a : RAMStorageAdapter) (key : string)
  : RAMStorageAdapter :=
  {| _items := _items a; _shards := JsObject.remove (_shards a) key |}.

(** [Object.keys(this._items)] *)
Definition _keys (a : RAMStorageAdapter) : list string :=
  JsObject.keys (_items a).

(** A run of [_put] and [_del] calls on a fresh adapter. *)
Inductive Call : Type :=
| Put (key : string) (item : Item)
| Del (key : string).

Definition call (a : RAMStorageAdapter) (c : Call) : RAMStorageAdapter :=
  match c with
  | Put k it => _put a k it
  | Del k => _del a k
  end.

Definition put_keys (cs : list Call) : list string :=
  omap (λ c, match c with Put k _ => Some k | Del _ => None end) cs.

End RAM.
Arguments RAMStorageAdapter : clear implicits.
Arguments Call : clear implicits.

(** Modelled from the spec: [_keys] of [lib/storage/adapters/fs.js],
    which is absent; its unit test feeds it a directory listing and
    expects the entries that are not shard keys to be filtered out
    ("iterates only keys matching the 40-hex pattern"). *)
Definition fs_keys (readdir : list string) : list string :=
  List.filter is_key readdir.

(** Modelled from the spec: [_keys] of the embedded-KV adapter, which is
    absent from the sources; over the keys the sorted store holds it
    "iterates only keys matching the 40-hex pattern". *)
Definition kv_keys (stored : list string) : list string :=
  List.filter is_key stored.

End Storage.

(* ===================================================================== *)
(** ** lib/filemuxer.js *)
(* ===================================================================== *)

Module FileMuxer.

(** A registered input: the chunks the readable will still deliver
    before it ends.  A chunk is a string of bytes. *)
Definition Input : Type := list string.

Record Options : Type := {
  shards : Js.value;
  length : Js.value
}.

(** The fields of a muxer; [_shards], [_length] and [_added] are the
    ones the bridge client reads and writes. *)
Record t : Type := {
  _shards : Z;
  _length : Z;
  _added : Z;
  _bytesRead : Z;
  _inputs : list Input
}.

(** Modelled from the spec: [lib/filemuxer.js] is absent.  "Both must
    be supplied; zero, negative, or non-integer values are rejected at
    construction", with the messages of the unit tests, [shards] being
    examined before [length]. *)
Definition _checkOptions (o : Options) : Js.result (Z * Z) :=
  match shards o with
  | Js.Number s =>
      if (s <=? 0)%Z then Js.Throw "Cannot multiplex a 0 shard stream"
      else match length o with
           | Js.Number l =>
               if (l <=? 0)%Z
               then Js.Throw "Cannot multiplex a 0 length stream"
               else Js.Ok (s, l)
           | _ => Js.Throw "You must supply a length parameter"
           end
  | _ => Js.Throw "You must supply a shards parameter"
  end.

(** Modelled from the spec: the constructor of [lib/filemuxer.js]
    (absent); a checked muxer starts with no inputs and nothing read. *)
Definition create (o : Options) : Js.result t :=
  match _checkOptions o with
  | Js.Ok (s, l) =>
      Js.Ok {| _shards := s; _length := l; _added := 0; _bytesRead := 0;
               _inputs := [] |}
  | Js.Throw e => Js.Throw e
  end.

(** Modelled from the spec: "[input(readable)]: registers an input in
    arrival order.  Attempting to add more than [shards] inputs fails",
    with the message of the unit test.  The comparison is on the
    fields [_added] and [_shards] that the bridge client reads. *)
Definition input (m : t) (readable : Input) : Js.result t :=
  if (_added m <? _shards m)%Z then
    Js.Ok {| _shards := _shards m; _length := _length m;
             _added := _added m + 1; _bytesRead := _bytesRead m;
             _inputs := _inputs m ++ [readable] |}
  else Js.Throw "Inputs exceed defined number of shards".

(** What one read yields: a chunk, the end of the stream, or an
    ['error'] event. *)
Inductive Event : Type :=
| Data (chunk : string)
| End
| Error (message : string).

Definition size (chunk : string) : Z := Z.of_nat (String.length chunk).

(** Modelled from the spec: "drains input 0 to completion, then input
    1, ... in index order"; "reading before any inputs are registered
    yields UnexpectedEndOfInput; cumulative bytes delivered exceeding
    [length] yields InputExceedsDeclaredLength; a short-delivered input
    yields an error at the terminal read".  An input that has ended is
    dropped and the next one is read. *)
Fixpoint read_from (bytesRead length : Z) (inputs : list Input)
  : Event * Z * list Input :=
  match inputs with
  | [] =>
      (if (bytesRead =? length)%Z then End
       else Error "Unexpected end of input", bytesRead, [])
  | [] :: rest => read_from bytesRead length rest
  | (chunk :: more) :: rest =>
      if (bytesRead + size chunk >? length)%Z
      then (Error "Input exceeds the declared length", bytesRead, inputs)
      else (Data chunk, (bytesRead + size chunk)%Z, more :: rest)
  end.

(** Modelled from the spec: [_read] of [lib/filemuxer.js] (absent), one
    read on the muxer's fields. *)
Definition _read (m : t) : t * Event :=
  let '(ev, bytesRead, inputs) :=
    read_from (_bytesRead m) (_length m) (_inputs m) in
  ({| _shards := _shards m; _length := _length m; _added := _added m;
      _bytesRead := bytesRead; _inputs := inputs |}, ev).

(** Flowing mode: read until something other than data comes out.
    Returns the ['data'] chunks in order and the event that stopped the
    flow ([None] when the fuel ran out first). *)
Fixpoint flow (fuel : nat) (m : t) : list string * option Event :=
  match fuel with
  | O => ([], None)
  | S fuel' =>
      match _read m with
      | (m', Data chunk) =>
          let '(out, stop) := flow fuel' m' in (chunk :: out, stop)
      | (_, ev) => ([], Some ev)
      end
  end.

(** The same flow, told on the chunks still to come, input after
    input: the reference the step function is compared with. *)
Fixpoint deliver (bytesRead length : Z) (chunks : list string)
  : list string * Event :=
  match chunks with
  | [] =>
      ([], if (bytesRead =? length)%Z then End
           else Error "Unexpected end of input")
  | chunk :: more =>
      if (bytesRead + size chunk >? length)%Z
      then ([], Error "Input exceeds the declared length")
      else let '(out, stop) :=
             deliver (bytesRead + size chunk) length more in
           (chunk :: out, stop)
  end.

(** Number of reads that certainly exhaust the registered inputs. *)
Definition reads_needed (m : t) : nat :=
  S (List.length (concat (_inputs m))).

(** [chunks += data] over the whole flow. *)
Definition collect (chunks : list string) : string :=
  fold_right String.append EmptyString chunks.

(** [fmxr.input(rs1).input(rs2)...]: chained registration. *)
Fixpoint input_all (m : t) (readables : list Input) : Js.result t :=
  match readables with
  | [] => Js.Ok m
  | r :: rest =>
      match input m r with
      | Js.Ok m' => input_all m' rest
      | Js.Throw e => Js.Throw e
      end
  end.

(** The readable streams of the ordering test: [read] pushes the
    decimal form of [++this._count] until the count reaches [stop]. *)
Definition counting_stream (start stop : nat) : Input :=
  map Js.toString (seq (S start) (stop - start)).

Definition total (inputs : list Input) : Z :=
  foldr (λ chunk acc, (size chunk + acc)%Z) 0%Z (concat inputs).

End FileMuxer.

(* ===================================================================== *)
(** ** lib/bridgeclient.js: resolveFileFromPointers *)
(* ===================================================================== *)

Module BridgeClient.

(** A file pointer as the bridge returns it; [channel] stands for what
    [_createInputFromPointer] calls back with: an error, or the read
    stream of the data channel. *)
Record Pointer : Type := {
  size : Z;
  channel : Js.result FileMuxer.Input
}.

(** [pointers.reduce(function(a, b) { return { size: a.size + b.size } },
    { size: 0 }).size] *)
Definition total_size (pointers : list Pointer) : Z :=
  foldl (λ a b, (a + size b)%Z) 0%Z pointers.

(** The muxer [resolveFileFromPointers] starts from. *)
Definition new_muxer (pointers : list Pointer) : Js.result FileMuxer.t :=
  FileMuxer.create
    {| FileMuxer.shards := Js.Number (Z.of_nat (List.length pointers));
       FileMuxer.length := Js.Number (total_size pointers) |}.

(** The queue worker [_addInputToMultiplexer]; the queue runs one task
    at a time.  [None] is the [undefined] that [pointers.shift()] gives
    on an empty array.  The result is the muxer afterwards, or the
    error emitted on it / thrown by [input]. *)
Definition _addInputToMultiplexer (muxer : FileMuxer.t)
    (pointer : option Pointer) : Js.result FileMuxer.t :=
  match pointer with
  | None => Js.Ok muxer
  | Some p =>
      match channel p with
      | Js.Throw err => Js.Throw err
      | Js.Ok inputStream =>
          let muxer :=
            if (FileMuxer._added muxer =? FileMuxer._shards muxer)%Z
            then {| FileMuxer._shards := FileMuxer._shards muxer + 1;
                    FileMuxer._length := FileMuxer._length muxer + size p;
                    FileMuxer._added := FileMuxer._added muxer;
                    FileMuxer._bytesRead := FileMuxer._bytesRead muxer;
                    FileMuxer._inputs := FileMuxer._inputs muxer |}
            else muxer in
          FileMuxer.input muxer inputStream
      end
  end.

(** Tasks pushed on the queue, worked off in order; stops at the first
    failure. *)
Fixpoint work (muxer : FileMuxer.t) (tasks : list (option Pointer))
  : Js.result FileMuxer.t :=
  match tasks with
  | [] => Js.Ok muxer
  | p :: rest =>
      match _addInputToMultiplexer muxer p with
      | Js.Ok m' => work m' rest
      | Js.Throw e => Js.Throw e
      end
  end.

End BridgeClient.

(* ===================================================================== *)
(** ** Concrete collaborators, used to run the definitions *)
(* ===================================================================== *)

Module Sample.

(** Loopback: the 127.0.0.0/8 block in dotted form. *)
Definition ip : IpLib :=
  {| isLoopback := λ a, String.prefix "127." a |}.

(** A toy signature scheme: a signature is any non-empty string, and it
    verifies when it spells the signer's node id. *)
Definition crypto : CryptoLib :=
  {| SigObj := string;
     PubKey := string;
     fromCompact := λ s, if String.eqb s "" then None else Some s;
     toPublicKey := λ _ so, so;
     verify := λ nodeID _ sg, String.eqb sg nodeID |}.

(** A limiter with a budget of two requests per contact. *)
Definition limiter : RateLimiterI (gmap string nat) :=
  {| isLimited := λ l k, (2 <=? default O (l !! k))%nat;
     updateCounter := λ l k, <[k := S (default O (l !! k))]> l;
     getResetTime := λ _, 60000%Z |}.

Definition config : Config :=
  {| version := "0.7.1";
     NONCE_EXPIRE := 300000%Z;
     STORJ_ALLOW_LOOPBACK := None;
     getBucketIndex := String.length;
     ms := λ z, Js.toString (Z.to_nat z) +:+ "ms" |}.

Definition farmer : Utils.Contact :=
  {| Utils.address := "104.200.143.243"; Utils.port := 1337;
     Utils.nodeID := "7a728a8c27fa378cafbd300c1e38639362f87ee8";
     Utils.protocol := "0.7.1" |}.

Definition local_farmer : Utils.Contact :=
  {| Utils.address := "127.0.0.1"; Utils.port := 1337;
     Utils.nodeID := "1315fb9624340229e723a046b0214acd33747b6a";
     Utils.protocol := "0.7.1" |}.

Definition old_farmer : Utils.Contact :=
  {| Utils.address := "some.domain.name"; Utils.port := 80;
     Utils.nodeID := "1315fb9624340229e723a046b0214acd33747b6b";
     Utils.protocol := "999.0.0" |}.

(** A request signed by contact [c] at time [t]. *)
Definition signed_request (c : Utils.Contact) (method : string) (t : Z)
  : Kad.Message :=
  Kad.Request "d1a3" method
    {| Kad.nonce := Some t; Kad.signature := Some (Utils.nodeID c) |}.

Definition state (bs : Kad.Buckets) (l : gmap string nat)
  : @Network.State (gmap string nat) crypto :=
  {| Network._buckets := bs; Network._pubkeys := ∅;
     Network._limiter := l |}.

(** The routing table of scenario S6, with a loopback contact added. *)
Definition table : Kad.Buckets :=
  [(159%nat, [farmer; local_farmer]); (158%nat, [old_farmer])].

(** The four readables of the muxer ordering test. *)
Definition readables : list FileMuxer.Input :=
  [FileMuxer.counting_stream 0 10; FileMuxer.counting_stream 10 20;
   FileMuxer.counting_stream 20 30; FileMuxer.counting_stream 30 40].

(** The readable of the length test: [chunks.pop()] hands out the bytes
    3, 2, 1, one per read. *)
Definition bytes_321 : FileMuxer.Input :=
  [String (ascii_of_nat 3) EmptyString;
   String (ascii_of_nat 2) EmptyString;
   String (ascii_of_nat 1) EmptyString].

Definition pointer (bytes : string) : BridgeClient.Pointer :=
  {| BridgeClient.size := FileMuxer.size bytes;
     BridgeClient.channel := Js.Ok [bytes] |}.

End Sample.

(* ===================================================================== *)
(** ** lib/network/index.js: signing, joining, tunnel discovery *)
(* ===================================================================== *)

(** [lib/keypair.js] (absent): the method the facade signs with. *)
Class KeyPairI := { sign : string * option Z → string }.

(** [alias] of an OPEN_TUNNEL reply: the public address to advertise. *)
Record Alias : Type := {
  alias_address : string;
  alias_port : Z
}.

Module Overlay.
Import Utils Kad.

(** [_signMessage], with [now] the value of [Date.now()]: stamps and
    signs [message.id + nonce] into [params] of a request or [result] of
    a response. *)
Definition _signMessage `{KeyPairI} (now : Z) (message : Message) : Message :=
  let stamp := now in
  let target := (id message, Some stamp) in
  let signed := sign target in
  match message with
  | Request i me _ =>
      Request i me {| nonce := Some stamp; signature := Some signed |}
  | Response i _ e =>
      Response i {| nonce := Some stamp; signature := Some signed |} e
  end.

(** [async.detectSeries(arr, iterator, callback)]: the items are tested
    one after the other until one passes; the callback gets that item, or
    [undefined].  The second component lists the items that were
    tested. *)
Fixpoint detectSeries {A : Type} (iterator : A → bool) (arr : list A)
  : option A * list A :=
  match arr with
  | [] => (None, [])
  | x :: rest =>
      if iterator x then (Some x, [x])
      else let '(found, tested) := detectSeries iterator rest in
           (found, x :: tested)
  end.

Section EnterOverlay.
(** [connect uri]: the error [Network#connect] calls back with, if any;
    [shuffle] is the knuth-shuffle of the bridge's contacts and
    [getContactURL] the URI of a contact ([lib/utils.js], absent). *)
Context (connect : string → option string)
        (shuffle : list Contact → list Contact)
        (getContactURL : Contact → string).

(** [options.seeds] and [options.bridge] ([None] for [false]). *)
Record JoinOptions : Type := {
  seeds : list string;
  bridge : option string
}.

Definition connects (uri : string) : bool :=
  match connect uri with None => true | Some _ => false end.

(** [_trySeeds]: the seeds tried, and the error handed to the callback.
    [!result] also holds for a seed that is the empty string. *)
Definition _trySeeds (seeds : list string) : list string * option string :=
  let '(result, tried) := detectSeries connects seeds in
  match result with
  | Some uri =>
      if String.eqb uri "" then (tried, Some "Failed to join the network")
      else (tried, None)
  | None => (tried, Some "Failed to join the network")
  end.

(** [_enterOverlay]; [contactList] is what the bridge answers to
    [getContactList({ connected: true })].  Result: the options
    afterwards, the seeds tried, the callback's error. *)
Definition _enterOverlay (o : JoinOptions)
    (contactList : Js.result (list Contact))
  : JoinOptions * (list string * option string) :=
  match seeds o with
  | _ :: _ => (o, _trySeeds (seeds o))
  | [] =>
      match bridge o with
      | None => (o, ([], None))
      | Some _ =>
          match contactList with
          | Js.Throw message =>
              (o, ([], Some ("Failed to discover seeds from bridge: "
                             +:+ message)))
          | Js.Ok found =>
              let o' := {| seeds := map getContactURL (shuffle found);
                           bridge := bridge o |} in
              (o', _trySeeds (seeds o'))
          end
      end
  end.

End EnterOverlay.

Section Tunnels.
Context `{IpLib} `{Config}.
(** What a neighbor answers over HTTP to FIND_TUNNEL ([result.tunnels],
    [None] for a response that carries no such list) and to OPEN_TUNNEL
    ([result.tunnel], [result.alias]), or the error the transport calls
    back with; [fresh_id] is the id [kad.Message] draws. *)
Context (find_tunnel : Contact → Js.result (option (list Contact)))
        (open_tunnel : Contact → Js.result (option string * option Alias))
        (fresh_id : string).

(** [this._transport.send(contact, message, callback)]: the callback
    gets the transport's refusal or the remote reply. *)
Definition request {R : Type} (reply : Contact → Js.result R)
    (contact : Contact) (message : Message) : Js.result R :=
  match Transport.send contact message with
  | Transport.HttpSend c _ => reply c
  | Transport.CallbackError e => Js.Throw e
  end.

(** How the [detectSeries] of [_findTunnel] ends: with the [tunnelers]
    collected, or with the TypeError that [resp.result.tunnels.length]
    raises inside the response handler, which nothing catches. *)
Inductive Asked : Type :=
| Collected (tunnelers : list Contact)
| Uncaught.

(** The [detectSeries] of [_findTunnel]: a neighbor passes when it
    replies with a non-empty list. *)
Fixpoint ask_neighbors (message : Message) (neighbors tunnelers : list Contact)
  : Asked :=
  match neighbors with
  | [] => Collected tunnelers
  | neighbor :: rest =>
      match request find_tunnel neighbor message with
      | Js.Throw _ => ask_neighbors message rest tunnelers
      | Js.Ok None => Uncaught
      | Js.Ok (Some []) => ask_neighbors message rest tunnelers
      | Js.Ok (Some tunnels) => Collected (tunnelers ++ tunnels)
      end
  end.

(** [TunnelTypeError]: the handler threw, [callback] is never called. *)
Inductive TunnelStep : Type :=
| TunnelError (message : string)
| Establish (tunnelers : list Contact)
| TunnelTypeError.

(** [_findTunnel]: the value [options.tunnels] (and the tunnel server's
    [maxTunnels]) is left with, and what happens next. *)
Definition _findTunnel (neighbors : list Contact) : Z * TunnelStep :=
  let message := Request fresh_id "FIND_TUNNEL" empty_object in
  let tunnels := 0%Z in
  match neighbors with
  | [] => (tunnels, TunnelError "Could not find a neighbor to query for tunnels")
  | _ :: _ =>
      match ask_neighbors message neighbors [] with
      | Uncaught => (tunnels, TunnelTypeError)
      | Collected [] =>
          (tunnels, TunnelError "Failed to find tunnels from neighbors")
      | Collected tunnelers => (tunnels, Establish tunnelers)
      end
  end.

(** [tunnel && alias], with the two values when it holds: a tunnel URL
    that is not the empty string, and an alias object. *)
Definition established (tunnel : option string) (alias : option Alias)
  : option (string * Alias) :=
  match tunnel, alias with
  | Some t, Some a => if String.eqb t "" then None else Some (t, a)
  | _, _ => None
  end.

(** [async.until(established, openTunnel, ...)]: every round shifts one
    tunneler off the array and asks it to OPEN_TUNNEL.  Result: the
    tunnelers left with the [tunnel] and [alias] obtained, or the error
    of [openTunnel] when the array ran dry. *)
Fixpoint until_established (tunnels : list Contact) (tunnel : option string)
    (alias : option Alias) : Js.result (list Contact * string * Alias) :=
  match established tunnel alias with
  | Some (t, a) => Js.Ok (tunnels, t, a)
  | None =>
    match tunnels with
    | [] => Js.Throw "No tunnelers were returned"
    | tun :: rest =>
        match request open_tunnel tun
                (Request fresh_id "OPEN_TUNNEL" empty_object) with
        | Js.Throw _ => until_established rest tunnel alias
        | Js.Ok (t, a) => until_established rest t a
        end
    end
  end.

Inductive Establishing : Type :=
| EstablishError (message : string)
| OpenTunnelClient (tunnel : string) (localPort : Z) (alias : Alias)
    (remaining : list Contact).

(** [_establishTunnel] up to the start of the tunnel client;
    [localAddress] is the port of [_server.address()], [None] while the
    server is not listening.  [remaining] is the array a later retry
    goes on with. *)
Definition _establishTunnel (localAddress : option Z)
    (tunnels : list Contact) : Establishing :=
  match until_established tunnels None None with
  | Js.Throw err =>
      EstablishError ("Failed to establish tunnel, reason: " +:+ err)
  | Js.Ok (remaining, tunnel, alias) =>
      match localAddress with
      | None =>
          EstablishError
            "Local transport not initialized, refusing to establish new tunnel"
      | Some port => OpenTunnelClient tunnel port alias remaining
      end
  end.

(** A tunneler whose OPEN_TUNNEL reply carries both a tunnel and an
    alias. *)
Definition opens (tun : Contact) : bool :=
  match request open_tunnel tun
          (Request fresh_id "OPEN_TUNNEL" empty_object) with
  | Js.Ok (t, a) => bool_decide (is_Some (established t a))
  | Js.Throw _ => false
  end.

(** A neighbor the [detectSeries] passes over: the transport calls back
    with an error, or the reply lists no tunneler. *)
Definition declines (neighbor : Contact) : bool :=
  match request find_tunnel neighbor
          (Request fresh_id "FIND_TUNNEL" empty_object) with
  | Js.Throw _ | Js.Ok (Some []) => true
  | _ => false
  end.

End Tunnels.

End Overlay.

(* ===================================================================== *)
(** ** lib/bridgeclient.js: retries of the upload path *)
(* ===================================================================== *)

Module BridgeUpload.
Import Utils.

Section AddShard.
(** [put_frame k]: how the k-th [PUT /frames/f] of one call ends
    (k = 0 for the first request). *)
Context {R : Type} (put_frame : nat → Js.result R).

(** The [opt] argument: omitted (the callback stands in its place, and
    [{ retry: 6 }] is used), or an object whose [retry] is a number or
    missing. *)
Definition retry_of (opt : option (option Z)) : option Z :=
  match opt with
  | None => Some 6%Z
  | Some retry => retry
  end.

(** [opt.retry > retries]; false when [opt.retry] is [undefined]. *)
Definition may_retry (retry : option Z) (retries : nat) : bool :=
  match retry with
  | Some r => (r >? Z.of_nat retries)%Z
  | None => false
  end.

(** The retries a call is allowed: [opt.retry] when it is a positive
    number, none otherwise. *)
Definition allowed (retry : option Z) : nat :=
  match retry with
  | Some r => Z.to_nat r
  | None => O
  end.

(** [_addShard], called again from its own callback.  Result: the number
    of requests sent and what [cb] receives; [None] when the fuel ran out
    first. *)
Fixpoint _addShard (fuel : nat) (retry : option Z) (retries : nat)
  : option (nat * Js.result R) :=
  match fuel with
  | O => None
  | S fuel' =>
      match put_frame retries with
      | Js.Throw err =>
          if may_retry retry retries then _addShard fuel' retry (S retries)
          else Some (S retries, Js.Throw err)
      | Js.Ok result => Some (S retries, Js.Ok result)
      end
  end.

Definition addShardToFileStagingFrame (fuel : nat) (opt : option (option Z))
  : option (nat * Js.result R) :=
  _addShard fuel (retry_of opt) 0.

End AddShard.

(** The part of a shard's [meta] the retry handler of [_startTransfer]
    works on. *)
Record Meta : Type := {
  transferRetries : Z;
  excludeFarmers : list string
}.

Inductive RetryAction : Type :=
| Retransfer
| NewContract.

(** The ['retry'] handler of [_startTransfer]; [limit] is
    [options.transferRetries], [farmer] is [pointer.farmer]. *)
Definition on_retry (limit : Z) (farmer : Contact) (meta : Meta)
  : Meta * RetryAction :=
  if (transferRetries meta <? limit)%Z then
    ({| transferRetries := transferRetries meta + 1;
        excludeFarmers := excludeFarmers meta |}, Retransfer)
  else
    ({| transferRetries := 0;
        excludeFarmers := excludeFarmers meta ++ [nodeID farmer] |},
     NewContract).

(** [k] failed transfers to the same farmer in a row. *)
Fixpoint on_retries (limit : Z) (farmer : Contact) (meta : Meta) (k : nat)
  : Meta * list RetryAction :=
  match k with
  | O => (meta, [])
  | S k' =>
      let '(meta', action) := on_retry limit farmer meta in
      match action with
      | Retransfer =>
          let '(meta'', actions) := on_retries limit farmer meta' k' in
          (meta'', action :: actions)
      | NewContract => (meta', [action])
      end
  end.

End BridgeUpload.

(* ===================================================================== *)
(** ** lib/bridgeclient.js: what the download queue has handled *)
(* ===================================================================== *)

Module Download.
Import BridgeClient.

(** The read stream a pointer's data channel opened with (nothing when
    the channel failed). *)
Definition stream_of (p : Pointer) : FileMuxer.Input :=
  match channel p with
  | Js.Ok inputStream => inputStream
  | Js.Throw _ => []
  end.

Definition channel_opens (p : Pointer) : Prop :=
  ∃ inputStream, channel p = Js.Ok inputStream.

(** The pointers among the queue's tasks ([undefined] tasks dropped). *)
Definition pointers_of (tasks : list (option Pointer)) : list Pointer :=
  omap (λ task, task) tasks.

End Download.

(* ===================================================================== *)
(** ** lib/storage/adapters/ram.js: shard streams and size *)
(* ===================================================================== *)

Module RAMStreams.
Import Storage.

Section Streams.
Context {Item Shard : Type} `{Countable Item}.
(** [data.length] of a buffer, and
    [Buffer(JSON.stringify(this._items)).length], which depends on the
    items held and on the [shard] property [_get] has given them. *)
Context (byteLength : Shard → nat).

(** [result.shard]: a readable when the shard lookup is truthy (with its
    [_finished] flag), a writable otherwise; both are bound to the
    key. *)
Inductive ShardStream : Type :=
| Readable (key : string) (_finished : bool)
| Writable (key : string).

Context (jsonLength : gmap string Item → gmap Item ShardStream → nat).

(** The adapter together with the [shard] property of the objects its
    lookups can yield: the items by identity (one object may sit under
    several keys), and the members of [Object.prototype] by name. *)
Record World : Type := {
  adapter : RAMStorageAdapter Item Shard;
  item_shard : gmap Item ShardStream;
  member_shard : gmap string ShardStream
}.

Definition fresh : World :=
  {| adapter := create; item_shard := ∅; member_shard := ∅ |}.

Definition with_adapter (w : World) (a : RAMStorageAdapter Item Shard)
  : World :=
  {| adapter := a; item_shard := item_shard w;
     member_shard := member_shard w |}.

(** [result.shard = stream] *)
Definition assign (w : World) (result : Ref Item) (stream : ShardStream)
  : World :=
  match result with
  | Stored item =>
      {| adapter := adapter w;
         item_shard := <[item := stream]> (item_shard w);
         member_shard := member_shard w |}
  | Builtin member =>
      {| adapter := adapter w; item_shard := item_shard w;
         member_shard := <[member := stream]> (member_shard w) |}
  end.

(** The branch on [this._shards[key]]. *)
Definition stream_for (a : RAMStorageAdapter Item Shard) (key : string)
  : option ShardStream :=
  match JsObject.get (_shards a) key with
  | JsObject.Own _ | JsObject.Inherited _ => Some (Readable key false)
  | JsObject.Missing => Some (Writable key)
  | JsObject.Unknown => None
  end.

(** [_get]: the world afterwards and what the callback receives (the
    object [new StorageItem(...)] is given, with its new [shard]).
    [None] where the call leaves the model: a lookup that goes through a
    replaced prototype, and the key [__proto__], whose lookup yields
    [Object.prototype] itself and would give it a [shard] property. *)
Definition _get (w : World) (key : string)
  : option (World * Js.result (Ref Item * ShardStream)) :=
  if String.eqb key "__proto__" then None
  else
    match JsObject.get (_items (adapter w)) key with
    | JsObject.Unknown => None
    | JsObject.Missing => Some (w, Js.Throw "Shard data not found")
    | JsObject.Own item =>
        match stream_for (adapter w) key with
        | Some stream =>
            Some (assign w (Stored item) stream,
                  Js.Ok (Stored item, stream))
        | None => None
        end
    | JsObject.Inherited member =>
        match stream_for (adapter w) key with
        | Some stream =>
            Some (assign w (Builtin member) stream,
                  Js.Ok (Builtin member, stream))
        | None => None
        end
    end.

(** [write(data, encoding, next)] of the writable. *)
Definition write (w : World) (key : string) (data : Shard) : World :=
  with_adapter w
    {| _items := _items (adapter w);
       _shards := JsObject.set (_shards (adapter w)) key data |}.

(** What a [read()] of the readable pushes: the buffer held, [null],
    [undefined], or an inherited member, which is no buffer. *)
Inductive Pushed : Type :=
| PushData (data : Shard)
| PushNull
| PushUndefined
| PushMember (member : string).

Definition read (w : World) (key : string) (_finished : bool)
  : option (Pushed * bool) :=
  if _finished then Some (PushNull, true)
  else match JsObject.get (_shards (adapter w)) key with
       | JsObject.Own data => Some (PushData data, true)
       | JsObject.Inherited member => Some (PushMember member, true)
       | JsObject.Missing => Some (PushUndefined, true)
       | JsObject.Unknown => None
       end.

(** [_size]: the [for ... in] sum over the shards, plus the items.  The
    loop also visits enumerable properties of the prototype:
    [Object.prototype] has none, a replaced prototype is not
    followed. *)
Definition shardBytes (w : World) : nat :=
  map_fold (λ _ shard acc, (acc + byteLength shard)%nat) O
    (JsObject.own (_shards (adapter w))).

Definition _size (w : World) : option nat :=
  if JsObject.replaced (_shards (adapter w)) then None
  else Some (jsonLength (JsObject.own (_items (adapter w))) (item_shard w)
             + shardBytes w)%nat.

(** Calls on the adapter and on the writables it handed out; a write
    names the key its stream is bound to. *)
Inductive Step : Type :=
| DoPut (key : string) (item : Item)
| DoDel (key : string)
| DoGet (key : string)
| DoWrite (key : string) (data : Shard).

Definition step_key (s : Step) : string :=
  match s with
  | DoPut k _ | DoDel k | DoGet k | DoWrite k _ => k
  end.

(** One call.  Besides the world, the state keeps the keys for which
    [_get] has handed out a writable; a write through a stream nobody
    holds does not happen. *)
Definition step (st : World * list string) (s : Step)
  : option (World * list string) :=
  let '(w, writables) := st in
  match s with
  | DoPut k it => Some (with_adapter w (_put (adapter w) k it), writables)
  | DoDel k => Some (with_adapter w (_del (adapter w) k), writables)
  | DoGet k =>
      match _get w k with
      | Some (w', Js.Ok (_, Writable k')) => Some (w', k' :: writables)
      | Some (w', _) => Some (w', writables)
      | None => None
      end
  | DoWrite k data =>
      if bool_decide (k ∈ writables) then Some (write w k data, writables)
      else Some st
  end.

Fixpoint run_from (st : World * list string) (steps : list Step)
  : option (World * list string) :=
  match steps with
  | [] => Some st
  | s :: rest =>
      match step st s with
      | Some st' => run_from st' rest
      | None => None
      end
  end.

Definition run (steps : list Step) : option (World * list string) :=
  run_from (fresh, []) steps.

(** Nothing has replaced a prototype, shard data is held only under keys
    that have an item, and writables are out only for such keys, none of
    them a member name. *)
Definition shards_have_items (st : World * list string) : Prop :=
  JsObject.replaced (_items (adapter (fst st))) = false
  ∧ JsObject.replaced (_shards (adapter (fst st))) = false
  ∧ (∀ k, is_Some (JsObject.own (_shards (adapter (fst st))) !! k) →
          is_Some (JsObject.own (_items (adapter (fst st))) !! k))
  ∧ (∀ k, k ∈ snd st →
          is_Some (JsObject.own (_items (adapter (fst st))) !! k)
          ∧ k ∉ JsObject.members).

(** The item of the last [_put] under [key] among the steps. *)
Fixpoint last_put (key : string) (steps : list Step) (found : option Item)
  : option Item :=
  match steps with
  | [] => found
  | DoPut k it :: rest =>
      last_put key rest (if String.eqb k key then Some it else found)
  | _ :: rest => last_put key rest found
  end.

End Streams.
Arguments ShardStream : clear implicits.
Arguments World : clear implicits.
Arguments World _ _ {_ _}.
Arguments Pushed : clear implicits.
Arguments Step : clear implicits.

End RAMStreams.

(* ===================================================================== *)
(** ** lib/uploadstate.js *)
(* ===================================================================== *)

Module UploadState.

(** What sits at a path: a file that can be unlinked, or something
    [fs.unlinkSync] fails on with the given error (a directory, a file
    in a directory that cannot be written). *)
Inductive Entry : Type :=
| File
| Blocked (error : string).

(** The file system: the paths that exist. *)
Definition existsSync (fs : gmap string Entry) (path : string) : bool :=
  bool_decide (is_Some (fs !! path)).

(** [fs.unlinkSync] throws on a path that does not exist or cannot be
    unlinked. *)
Definition unlinkSync (fs : gmap string Entry) (path : string)
  : Js.result (gmap string Entry) :=
  match fs !! path with
  | Some File => Js.Ok (delete path fs)
  | Some (Blocked error) => Js.Throw error
  | None => Js.Throw "ENOENT: no such file or directory"
  end.

(** [cleanup]: [this.cleanQueue.forEach(...)]; an exception of the
    callback ends the loop and leaves [cleanup].  Result: the file
    system as it is left, and the error thrown, if any. *)
Fixpoint cleanup (cleanQueue : list string) (fs : gmap string Entry)
  : gmap string Entry * option string :=
  match cleanQueue with
  | [] => (fs, None)
  | tmpFilePath :: rest =>
      if existsSync fs tmpFilePath then
        match unlinkSync fs tmpFilePath with
        | Js.Ok fs' => cleanup rest fs'
        | Js.Throw e => (fs, Some e)
        end
      else cleanup rest fs
  end.

(** A path [fs.unlinkSync] does not fail on, if it exists. *)
Definition removable (fs : gmap string Entry) (path : string) : Prop :=
  ∀ error, fs !! path ≠ Some (Blocked error).

End UploadState.

(* ===================================================================== *)
(** ** lib/network/transport.js: opening the transport *)
(* ===================================================================== *)

(** The [ip] package again: [isPublic] and [isPrivate]. *)
Class IpRanges := {
  isPublic : string → bool;
  isPrivate : string → bool
}.

Module TransportOpen.
Import Utils.

Section Open.
Context `{IpRanges}.
(** The NAT device and the port finder: [portMapping port] calls back
    with an error or not, [externalIp] with an error or the WAN address,
    [getPort] with an error or a free port. *)
Context (portMapping : Z → option string)
        (externalIp : Js.result string)
        (getPort : Js.result Z).

Record T : Type := {
  _contact : Contact;
  _noforward : bool;
  _isPublic : option bool;
  _requiresTraversal : bool
}.

(** [createPortMapping(port, callback)]: [callback(err)] or
    [callback(null, String(wanip), port)]. *)
Definition createPortMapping (port : Z) : Js.result (string * Z) :=
  match portMapping port with
  | Some err => Js.Throw err
  | None =>
      match externalIp with
      | Js.Throw err => Js.Throw err
      | Js.Ok wanip =>
          if isPrivate wanip
          then Js.Throw "UPnP device has no public IP address"
          else Js.Ok (wanip, port)
      end
  end.

(** [_getPort]: the contact's port when it is set (not 0). *)
Definition _getPort (t : T) : Js.result Z :=
  if negb (port (_contact t) =? 0)%Z then Js.Ok (port (_contact t))
  else getPort.

Definition _forwardPort (t : T) : Js.result (string * Z) :=
  match _getPort t with
  | Js.Throw err => Js.Throw err
  | Js.Ok port => createPortMapping port
  end.

Definition with_contact (c : Contact) (address : string) (port : Z)
  : Contact :=
  {| address := address; port := port; nodeID := nodeID c;
     protocol := protocol c |}.

(** [a || b] on strings and on numbers. *)
Definition or_string (a b : string) : string :=
  if String.eqb a "" then b else a.
Definition or_number (a b : Z) : Z := if (a =? 0)%Z then b else a.

(** [_open], up to the call of the HTTP transport's own [_open]. *)
Definition _open (t : T) : T :=
  if isPublic (address (_contact t)) || _noforward t then
    {| _contact := _contact t; _noforward := _noforward t;
       _isPublic := Some true;
       _requiresTraversal := _requiresTraversal t |}
  else
    match _forwardPort t with
    | Js.Throw _ =>
        {| _contact := _contact t; _noforward := _noforward t;
           _isPublic := Some false; _requiresTraversal := true |}
    | Js.Ok (wanip, port') =>
        {| _contact :=
             with_contact (_contact t)
               (or_string wanip (address (_contact t)))
               (or_number port' (port (_contact t)));
           _noforward := _noforward t;
           _isPublic := Some true; _requiresTraversal := true |}
    end.

End Open.

End TransportOpen.

(* ===================================================================== *)
(** ** Concrete collaborators for the operations above *)
(* ===================================================================== *)

Module Fixtures.

(** The key pair of [Sample.farmer] under the toy scheme of
    [Sample.crypto]: its signature spells its node id. *)
Definition keypair : KeyPairI :=
  {| sign := λ _, Utils.nodeID Sample.farmer |}.

(** Two seeds, of which only the second answers. *)
Definition seed1 : string := "storj://10.0.0.1:4000/1315fb9624340229e723a046b0214acd33747b6a".
Definition seed2 : string := "storj://104.200.143.243:1337/7a728a8c27fa378cafbd300c1e38639362f87ee8".
Definition seed3 : string := "storj://some.domain.name:80/1315fb9624340229e723a046b0214acd33747b6b".

Definition connect (uri : string) : option string :=
  if String.eqb uri seed2 then None else Some "connect ETIMEDOUT".

(** Neighbors: only [Sample.farmer] knows a tunneler, and only the
    tunneler [Sample.old_farmer] has a slot. *)
Definition find_tunnel (c : Utils.Contact)
  : Js.result (option (list Utils.Contact)) :=
  if String.eqb (Utils.nodeID c) (Utils.nodeID Sample.farmer)
  then Js.Ok (Some [Sample.local_farmer; Sample.old_farmer])
  else Js.Ok (Some []).

(** Neighbors of which [Sample.farmer] replies without a [tunnels]
    list. *)
Definition find_tunnel_bare (c : Utils.Contact)
  : Js.result (option (list Utils.Contact)) :=
  if String.eqb (Utils.nodeID c) (Utils.nodeID Sample.farmer)
  then Js.Ok None
  else Js.Ok (Some []).

Definition gateway : Alias :=
  {| alias_address := "104.200.143.243"; alias_port := 4001 |}.

Definition open_tunnel (c : Utils.Contact)
  : Js.result (option string * option Alias) :=
  if String.eqb (Utils.nodeID c) (Utils.nodeID Sample.old_farmer)
  then Js.Ok (Some "ws://104.200.143.243:4002", Some gateway)
  else Js.Throw "No tunnel available".

(** A bridge that accepts the shard on the third request. *)
Definition put_frame (k : nat) : Js.result string :=
  if (k <? 2)%nat then Js.Throw "ECONNRESET" else Js.Ok "pointer".

(** A routing table keyed the way [Sample.config] indexes node ids. *)
Definition table : Kad.Buckets :=
  [(40%nat, [Sample.farmer; Sample.old_farmer]); (7%nat, [Sample.local_farmer])].

Definition ranges : IpRanges :=
  {| isPublic := λ a, negb (String.prefix "192.168." a);
     isPrivate := λ a, String.prefix "192.168." a |}.

Definition behind_nat : TransportOpen.T :=
  {| TransportOpen._contact :=
       {| Utils.address := "192.168.1.7"; Utils.port := 0;
          Utils.nodeID := "7a728a8c27fa378cafbd300c1e38639362f87ee8";
          Utils.protocol := "0.7.1" |};
     TransportOpen._noforward := false;
     TransportOpen._isPublic := None;
     TransportOpen._requiresTraversal := false |}.

(** Temporary files of an upload, next to a directory and a file that
    is not part of the upload. *)
Definition tmp_files : gmap string UploadState.Entry :=
  <["/tmp/shard-1" := UploadState.File]>
    (<["/tmp/shard-2" := UploadState.File]>
       (<["/tmp/keep" := UploadState.File]>
          (<["/tmp/dir" :=
               UploadState.Blocked "EISDIR: illegal operation on a directory"]>
             ∅))).

End Fixtures.

(* ===================================================================== *)
(** * Properties *)
(* ===================================================================== *)

(** ** Protocol versions *)

Section VersionFacts.
Import Utils.

Lemma take_digits_app (s t' : string) (c : ascii) (acc : N) :
  is_digit c = false →
  take_digits acc (s +:+ String c t')
  = let '(k, v, rest) := take_digits acc s in (k, v, rest +:+ String c t').
Proof.
  intros Hc. revert acc.
  induction s as [|a s IH]; intros acc; simpl.
  - by rewrite Hc.
  - destruct (is_digit a); [|done].
    rewrite IH. by destruct (take_digits _ s) as [[k v] rest].
Qed.

Lemma component_app (s t' : string) (c : ascii) (v : N) (rest : string) :
  is_digit c = false →
  component s = Some (v, rest) →
  component (s +:+ String c t') = Some (v, rest +:+ String c t').
Proof.
  unfold component. intros Hc. rewrite (take_digits_app _ _ _ _ Hc).
  destruct (take_digits 0 s) as [[k w] r]. destruct k; [done|].
  by intros [= -> ->].
Qed.

Lemma valid_tag_app (t t' : string) (c : ascii) :
  valid_tag t = true →
  valid_tag (String c t') = true →
  valid_tag (t +:+ String c t') = true.
Proof. by destruct t. Qed.

(** Appending a suffix that starts with [-] or [+] to a version leaves
    the numbers alone and extends the tag. *)
Lemma parse_app (s t' : string) (c : ascii) (v : SemVer) :
  is_digit c = false →
  valid_tag (String c t') = true →
  parse s = Some v →
  parse (s +:+ String c t')
  = Some {| major := major v; minor := minor v; patch := patch v;
            tag := tag v +:+ String c t' |}.
Proof.
  intros Hc Ht. unfold parse.
  destruct (component s) as [[ma r1]|] eqn:E1; [|done].
  destruct r1 as [|d1 r1]; [done|].
  rewrite (component_app _ _ _ _ _ Hc E1). simpl.
  destruct (Ascii.ascii_dec d1 ".") as [->|Hd1];
    [|by repeat (destruct d1 as [[] [] [] [] [] [] [] []]; try done)].
  destruct (component r1) as [[mi r2]|] eqn:E2; [|done].
  destruct r2 as [|d2 r2]; [done|].
  rewrite (component_app _ _ _ _ _ Hc E2). simpl.
  destruct (Ascii.ascii_dec d2 ".") as [->|Hd2];
    [|by repeat (destruct d2 as [[] [] [] [] [] [] [] []]; try done)].
  destruct (component r2) as [[pa t]|] eqn:E3; [|done].
  rewrite (component_app _ _ _ _ _ Hc E3).
  destruct (valid_tag t) eqn:Hv; [|done].
  rewrite (valid_tag_app _ _ _ Hv Ht). by intros [= <-].
Qed.

Lemma append_length (a b : string) :
  String.length (a +:+ b) = (String.length a + String.length b)%nat.
Proof. induction a as [|x a IH]; simpl; [done | by rewrite IH]. Qed.

Lemma append_neq (a b : string) : b ≠ EmptyString → a +:+ b ≠ a.
Proof.
  intros Hb Heq. apply (f_equal String.length) in Heq.
  rewrite append_length in Heq. destruct b; [done|]. simpl in Heq. lia.
Qed.

Lemma compatible_iff (l r : SemVer) :
  compatible l r = true
  ↔ major r = major l ∧ minor r = minor l ∧ tag r = tag l.
Proof.
  unfold compatible. rewrite !andb_true_iff, !N.eqb_eq, String.eqb_eq.
  intuition congruence.
Qed.

End VersionFacts.

Section Compatibility.
Context `{Config}.
Import Utils.

(** C5.  With [l] the local version: a remote version is compatible
    exactly when it has the major, the minor and the tag of [l]; hence
    the local version itself is compatible, a version that differs from
    it in the patch number only is compatible, a version with another
    major is not, and the local version followed by [-buildtag] is
    not. *)
Theorem isCompatibleVersion_major_minor_tag (l : SemVer) :
  parse version = Some l →
  (∀ remote,
     isCompatibleVersion remote = true
     ↔ ∃ r, parse remote = Some r
            ∧ major r = major l ∧ minor r = minor l ∧ tag r = tag l)
  ∧ isCompatibleVersion version = true
  ∧ (∀ remote p,
       parse remote = Some {| major := major l; minor := minor l;
                              patch := p; tag := tag l |} →
       isCompatibleVersion remote = true)
  ∧ (∀ remote r,
       parse remote = Some r → major r ≠ major l →
       isCompatibleVersion remote = false)
  ∧ isCompatibleVersion (version +:+ "-buildtag") = false.
Proof.
  intros Hl.
  assert (Hiff : ∀ remote,
     isCompatibleVersion remote = true
     ↔ ∃ r, parse remote = Some r
            ∧ major r = major l ∧ minor r = minor l ∧ tag r = tag l).
  { intros remote. unfold isCompatibleVersion. rewrite Hl.
    destruct (parse remote) as [r|].
    - rewrite compatible_iff. split.
      + intros Hr. by exists r.
      + by intros (r' & [= <-] & Hr).
    - split; [done | by intros (r' & ? & _)]. }
  split; [exact Hiff|]. repeat split.
  - apply Hiff. by exists l.
  - intros remote p Hp. apply Hiff. eexists. split; [exact Hp | done].
  - intros remote r Hr Hne. apply not_true_is_false. intros Hc.
    apply Hiff in Hc as (r' & Hr' & Hma & _). congruence.
  - apply not_true_is_false. intros Hc.
    apply Hiff in Hc as (r' & Hr' & _ & _ & Htag).
    rewrite (parse_app version "buildtag" "-" l) in Hr' by done.
    injection Hr' as <-. simpl in Htag.
    by apply append_neq in Htag.
Qed.

End Compatibility.

(** With version 0.7.1 running locally: 0.7.2 is accepted, 999.0.0 and
    0.7.1-buildtag are refused. *)
Lemma isCompatibleVersion_major_minor_tag_witness :
  Utils.parse (@version Sample.config)
  = Some {| Utils.major := 0; Utils.minor := 7; Utils.patch := 1;
            Utils.tag := "" |}
  ∧ @Utils.isCompatibleVersion Sample.config "0.7.1" = true
  ∧ @Utils.isCompatibleVersion Sample.config "0.7.2" = true
  ∧ @Utils.isCompatibleVersion Sample.config "999.0.0" = false
  ∧ @Utils.isCompatibleVersion Sample.config "0.7.1-buildtag" = false.
Proof.
  split; [reflexivity|].
  destruct (@isCompatibleVersion_major_minor_tag Sample.config
              {| Utils.major := 0; Utils.minor := 7; Utils.patch := 1;
                 Utils.tag := "" |} eq_refl)
    as (_ & Hsame & Hpatch & Hmajor & Htag).
  split; [exact Hsame|]. split; [|split].
  - apply (Hpatch "0.7.2" 2%N). reflexivity.
  - apply (Hmajor "999.0.0"
             {| Utils.major := 999; Utils.minor := 0; Utils.patch := 0;
                Utils.tag := "" |}); [reflexivity | discriminate].
  - exact Htag.
Defined.

(** ** Transport.send *)

Section TransportFacts.
Context `{IpLib} `{Config}.
Import Utils Kad Transport.

(** C10.  A response always goes to the underlying transport, whatever
    the contact; a request to a contact that fails [isValidContact]
    (loopback allowed only when STORJ_ALLOW_LOOPBACK is set) is not
    transmitted and its callback receives 'Invalid or forbidden contact
    address'. *)
Theorem send_requests_validated (contact : Contact) (message : Message) :
  (isResponse message = true →
   send contact message = HttpSend contact message)
  ∧ (isRequest message = true →
     isValidContact contact (Js.truthy_env STORJ_ALLOW_LOOPBACK) = false →
     send contact message
     = CallbackError "Invalid or forbidden contact address").
Proof.
  unfold send. split.
  - by intros ->.
  - intros Hreq Hbad. destruct message; [|done]. simpl.
    by rewrite negb_involutive, Hbad.
Qed.

Lemma send_request_valid (contact : Contact) (message : Message) :
  isRequest message = true →
  isValidContact contact (Js.truthy_env STORJ_ALLOW_LOOPBACK) = true →
  send contact message = HttpSend contact message.
Proof.
  unfold send. intros Hreq Hok. destruct message; [|done]. simpl.
  by rewrite negb_involutive, Hok.
Qed.

End TransportFacts.

(** A response to a loopback contact is forwarded; a request to it is
    refused while loopback is not enabled. *)
Lemma send_requests_validated_witness :
  @Transport.send Sample.ip Sample.config Sample.local_farmer
    (Kad.Response "d1a3" Kad.empty_object None)
  = Transport.HttpSend Sample.local_farmer
      (Kad.Response "d1a3" Kad.empty_object None)
  ∧ @Transport.send Sample.ip Sample.config Sample.local_farmer
      (Sample.signed_request Sample.local_farmer "PING" 0)
    = Transport.CallbackError "Invalid or forbidden contact address".
Proof.
  split.
  - apply (@send_requests_validated Sample.ip Sample.config). reflexivity.
  - apply (@send_requests_validated Sample.ip Sample.config);
      reflexivity.
Defined.

(** ** The hooks of the network facade *)

Section NetworkFacts.
Context {L : Type} `{IpLib} `{CryptoLib} `{RateLimiterI L} `{Config}.
Import Utils Kad Network.

Implicit Types (s : @State L _) (message : Message) (contact : Contact).

(** C8.  A response passes and leaves the limiter as it is; a request
    from a limited contact is answered with an error response that
    carries 'Rate limit exceeded' and the wait time, the chain stops
    (no handler runs) and the counter is not touched; a request from a
    contact within its budget updates the counter and proceeds. *)
Theorem checkRateLimiter_requests_only s message contact :
  (isResponse message = true →
   _checkRateLimiter s message contact = (s, Next))
  ∧ (isRequest message = true →
     isLimited (_limiter s) (nodeID contact) = true →
     _checkRateLimiter s message contact
     = (s, Answered (Transport.HttpSend contact
          (Response (id message) empty_object
             (Some ("Rate limit exceeded, please wait "
                    +:+ ms (getResetTime (_limiter s))))))))
  ∧ (isRequest message = true →
     isLimited (_limiter s) (nodeID contact) = false →
     _checkRateLimiter s message contact
     = (with_limiter s (updateCounter (_limiter s) (nodeID contact)),
        Next)).
Proof.
  unfold _checkRateLimiter. repeat split.
  - by intros ->.
  - intros Hreq Hlim. destruct message; [|done]. simpl. by rewrite Hlim.
  - intros Hreq Hlim. destruct message; [|done]. simpl. by rewrite Hlim.
Qed.

Lemma validateContact_result s contact :
  snd (_validateContact s contact) = None ↔ is_bad contact = false.
Proof.
  unfold _validateContact, is_bad.
  destruct (isCompatibleVersion _), (isValidContact _ _); simpl;
    split; done.
Qed.

Lemma validateContact_error s contact e :
  snd (_validateContact s contact) = Some e →
  e = "Protocol version is incompatible"
  ∨ e = "Invalid contact data supplied".
Proof.
  unfold _validateContact.
  destruct (isCompatibleVersion _), (isValidContact _ _); simpl;
    intros [= <-]; auto.
Qed.

Lemma validateContact_pubkeys s contact :
  _pubkeys (fst (_validateContact s contact)) = _pubkeys s.
Proof.
  unfold _validateContact.
  by destruct (isCompatibleVersion _), (isValidContact _ _).
Qed.

(** The verdict of the nonce and signature checks does not depend on
    the facade's state. *)
Lemma check_envelope_verdict now s s' message contact :
  snd (check_envelope now s message contact)
  = snd (check_envelope now s' message contact).
Proof.
  unfold check_envelope, _verifySignature.
  destruct (expired _ _); [done|].
  destruct (_createSignatureObject _); [|done].
  destruct (signature _); [|done].
  by destruct (verify _ _ _).
Qed.

Lemma not_exempt_false (m : option string) :
  not_exempt m = false
  ↔ ∃ me, m = Some me ∧ me ∈ ["PROBE"; "FIND_TUNNEL"; "OPEN_TUNNEL"].
Proof.
  unfold not_exempt. destruct m as [me|].
  - rewrite negb_false_iff. simpl. rewrite !orb_true_iff, !String.eqb_eq.
    split.
    + intros Hme. exists me. split; [done|].
      rewrite !elem_of_cons, elem_of_nil. intuition congruence.
    + intros (me' & [= <-] & Hin).
      rewrite !elem_of_cons, elem_of_nil in Hin. intuition congruence.
  - split; [done | by intros (? & ? & _)].
Qed.

(** C7.  When contact validation fails (incompatible protocol version
    or invalid address): a PROBE, FIND_TUNNEL or OPEN_TUNNEL message
    gets the verdict the nonce and signature checks give on their own;
    a message with any other method, or with none, is rejected with
    the validation error. *)
Theorem verifyMessage_exempt_methods now s message contact :
  is_bad contact = true →
  ((∃ me, method message = Some me
          ∧ me ∈ ["PROBE"; "FIND_TUNNEL"; "OPEN_TUNNEL"]) →
   snd (_verifyMessage now s message contact)
   = snd (check_envelope now s message contact))
  ∧ ((∀ me, method message = Some me →
            me ∉ ["PROBE"; "FIND_TUNNEL"; "OPEN_TUNNEL"]) →
     snd (_verifyMessage now s message contact)
     = snd (_validateContact s contact)
     ∧ snd (_verifyMessage now s message contact) ≠ None).
Proof.
  intros Hbad. unfold _verifyMessage.
  destruct (_validateContact s contact) as [s1 err] eqn:Hv.
  assert (Herr : err ≠ None).
  { intros ->. pose proof (proj1 (validateContact_result s contact)) as Hk.
    rewrite Hv in Hk. specialize (Hk eq_refl). congruence. }
  destruct err as [e|]; [|done]. split.
  - intros Hex. apply not_exempt_false in Hex. rewrite Hex.
    apply check_envelope_verdict.
  - intros Hnot. destruct (not_exempt (method message)) eqn:Hne; [done|].
    apply not_exempt_false in Hne as (me & Hme & Hin).
    by destruct (Hnot me Hme).
Qed.

Lemma check_envelope_expired now s message contact n :
  nonce (envelope message) = Some n →
  (now - n > NONCE_EXPIRE)%Z →
  check_envelope now s message contact
  = (s, Some "Message signature expired").
Proof.
  intros Hn Hlate. unfold check_envelope, expired. rewrite Hn.
  destruct (Z.gtb_spec now (NONCE_EXPIRE + n)); [done | lia].
Qed.

Lemma check_envelope_accepts now s message contact n :
  nonce (envelope message) = Some n →
  snd (check_envelope now s message contact) = None →
  (now - n ≤ NONCE_EXPIRE)%Z.
Proof.
  intros Hn. unfold check_envelope, expired. rewrite Hn.
  destruct (Z.gtb_spec now (NONCE_EXPIRE + n)); [done | lia].
Qed.

(** C2 as the code has it.  For a message that carries nonce [n]:
    verification succeeds only when [now - n <= NONCE_EXPIRE]; and a
    message that contact validation lets through (the contact is fine,
    or the method is exempt) with [now - n > NONCE_EXPIRE] is rejected
    with 'Message signature expired' before the signature is looked at:
    whatever the signature, and without recording a public key. *)
Theorem verifyMessage_nonce_window now s message contact n :
  nonce (envelope message) = Some n →
  (snd (_verifyMessage now s message contact) = None →
   (now - n ≤ NONCE_EXPIRE)%Z)
  ∧ ((now - n > NONCE_EXPIRE)%Z →
     is_bad contact = false ∨ not_exempt (method message) = false →
     snd (_verifyMessage now s message contact)
     = Some "Message signature expired"
     ∧ _pubkeys (fst (_verifyMessage now s message contact))
       = _pubkeys s).
Proof.
  intros Hn. unfold _verifyMessage.
  pose proof (validateContact_result s contact) as Hres.
  pose proof (validateContact_pubkeys s contact) as Hpk.
  destruct (_validateContact s contact) as [s1 err]. simpl in *. split.
  - destruct err as [e|].
    + destruct (not_exempt _); [done|].
      by apply check_envelope_accepts.
    + by apply check_envelope_accepts.
  - intros Hlate Hthrough.
    destruct err as [e|].
    + destruct Hthrough as [Hok | Hex].
      * apply Hres in Hok. done.
      * rewrite Hex. by rewrite (check_envelope_expired _ _ _ _ n).
    + by rewrite (check_envelope_expired _ _ _ _ n).
Qed.

End NetworkFacts.

Section NetworkWitnesses.
#[local] Existing Instance Sample.ip.
#[local] Existing Instance Sample.crypto.
#[local] Existing Instance Sample.limiter.
#[local] Existing Instance Sample.config.
Import Utils Kad Network.

(** A response is let through; the third request of a contact with a
    budget of two is answered with the error; the first one counts. *)
Lemma checkRateLimiter_requests_only_witness :
  let fresh := Sample.state [] ∅ in
  let spent :=
    Sample.state [] {[ nodeID Sample.farmer := 2%nat ]} in
  _checkRateLimiter spent (Response "d1a3" empty_object None)
    Sample.farmer = (spent, Next)
  ∧ _checkRateLimiter spent (Sample.signed_request Sample.farmer "PING" 0)
      Sample.farmer
    = (spent, Answered (Transport.HttpSend Sample.farmer
         (Response "d1a3" empty_object
            (Some "Rate limit exceeded, please wait 60000ms"))))
  ∧ _checkRateLimiter fresh (Sample.signed_request Sample.farmer "PING" 0)
      Sample.farmer
    = (Sample.state [] {[ nodeID Sample.farmer := 1%nat ]}, Next).
Proof.
  intros fresh spent. split; [|split].
  - exact (proj1 (checkRateLimiter_requests_only spent
                    (Response "d1a3" empty_object None) Sample.farmer)
             eq_refl).
  - exact (proj1 (proj2 (checkRateLimiter_requests_only spent
                    (Sample.signed_request Sample.farmer "PING" 0)
                    Sample.farmer)) eq_refl eq_refl).
  - exact (proj2 (proj2 (checkRateLimiter_requests_only fresh
                    (Sample.signed_request Sample.farmer "PING" 0)
                    Sample.farmer)) eq_refl eq_refl).
Defined.

(** A contact on protocol 999.0.0: its PROBE is verified on nonce and
    signature alone and accepted, its PING is rejected. *)
Lemma verifyMessage_exempt_methods_witness :
  is_bad Sample.old_farmer = true
  ∧ snd (_verifyMessage 1000 (Sample.state [] ∅)
           (Sample.signed_request Sample.old_farmer "PROBE" 0)
           Sample.old_farmer)
    = snd (check_envelope 1000 (Sample.state [] ∅)
             (Sample.signed_request Sample.old_farmer "PROBE" 0)
             Sample.old_farmer)
  ∧ snd (_verifyMessage 1000 (Sample.state [] ∅)
           (Sample.signed_request Sample.old_farmer "PING" 0)
           Sample.old_farmer)
    = snd (_validateContact (Sample.state [] ∅) Sample.old_farmer).
Proof.
  assert (Hbad : is_bad Sample.old_farmer = true) by reflexivity.
  split; [exact Hbad|]. split.
  - apply (proj1 (verifyMessage_exempt_methods 1000 (Sample.state [] ∅)
             (Sample.signed_request Sample.old_farmer "PROBE" 0)
             Sample.old_farmer Hbad)).
    exists "PROBE". split; [reflexivity|]. apply list_elem_of_here.
  - apply (proj2 (verifyMessage_exempt_methods 1000 (Sample.state [] ∅)
             (Sample.signed_request Sample.old_farmer "PING" 0)
             Sample.old_farmer Hbad)).
    intros me [= <-] Hin.
    rewrite !elem_of_cons, elem_of_nil in Hin.
    destruct Hin as [|[|[|]]]; discriminate || done.
Defined.

(** One millisecond past the window the message is refused as
    expired. *)
Lemma verifyMessage_nonce_window_witness :
  snd (_verifyMessage 300001 (Sample.state [] ∅)
         (Sample.signed_request Sample.farmer "PING" 0) Sample.farmer)
  = Some "Message signature expired".
Proof.
  apply (proj2 (verifyMessage_nonce_window 300001 (Sample.state [] ∅)
           (Sample.signed_request Sample.farmer "PING" 0)
           Sample.farmer 0 eq_refl));
    [reflexivity | left; reflexivity].
Defined.

(** C2 fails as stated: a correctly signed message whose nonce is
    exactly NONCE_EXPIRE milliseconds old verifies. *)
Lemma verifyMessage_accepts_at_window_edge :
  ¬ (∀ (now : Z) (s : @State (gmap string nat) _) (message : Message)
       (contact : Contact) (n : Z),
       nonce (envelope message) = Some n →
       (snd (_verifyMessage now s message contact) = None →
        (now - n < NONCE_EXPIRE)%Z)
       ∧ ((NONCE_EXPIRE ≤ now - n)%Z →
          snd (_verifyMessage now s message contact)
          = Some "Message signature expired")).
Proof.
  intros Hclaim.
  destruct (Hclaim 300000%Z (Sample.state [] ∅)
              (Sample.signed_request Sample.farmer "PING" 0)
              Sample.farmer 0%Z eq_refl) as [Honly _].
  specialize (Honly eq_refl). simpl in Honly. lia.
Qed.

End NetworkWitnesses.

(** ** The routing-table cleaner *)

Section CleanerFacts.
Context {L : Type} `{IpLib} `{CryptoLib} `{RateLimiterI L} `{Config}.
Import Utils Kad Network.

Lemma good_checks (c : Contact) :
  good c = true
  ↔ isCompatibleVersion (protocol c) = true
    ∧ (0 < port c)%Z
    ∧ (isLoopback (address c) = true →
       Js.truthy_env STORJ_ALLOW_LOOPBACK = true).
Proof.
  unfold good, is_bad, isValidContact.
  destruct (isCompatibleVersion _), (Z.ltb_spec 0 (port c)),
    (isLoopback _), (Js.truthy_env _); simpl;
    intuition (try done; try lia).
Qed.

Lemma indexOf_middle (p l : Bucket) (c : Contact) :
  nodeID c ∉ nodeID <$> p →
  indexOf (p ++ c :: l) c = Some (List.length p).
Proof.
  induction p as [|x p IH]; intros Hnot.
  - simpl. by rewrite String.eqb_refl.
  - rewrite fmap_cons, not_elem_of_cons in Hnot. destruct Hnot as [Hx Hp].
    simpl. destruct (String.eqb_spec (nodeID x) (nodeID c)); [congruence|].
    by rewrite (IH Hp).
Qed.

Lemma removeContact_middle (p l : Bucket) (c : Contact) :
  nodeID c ∉ nodeID <$> p →
  removeContact (p ++ c :: l) c = p ++ l.
Proof.
  intros Hnot. unfold removeContact. rewrite (indexOf_middle _ _ _ Hnot).
  induction p as [|x p IH]; [done|]. simpl. f_equal. apply IH.
  rewrite fmap_cons, not_elem_of_cons in Hnot. apply Hnot.
Qed.

(** The inner loop, started in the middle of a bucket: the contacts
    before the cursor stay, those from the cursor on are sorted into
    kept and dropped. *)
Lemma clean_steps (l p : Bucket) (dropped : list Contact) :
  bucket_wf (p ++ l) →
  foldl clean_step (p ++ l, dropped) l
  = (p ++ List.filter good l, dropped ++ List.filter is_bad l).
Proof.
  unfold bucket_wf. revert p dropped.
  induction l as [|c l IH]; intros p dropped Hwf; simpl.
  - by rewrite !app_nil_r.
  - unfold clean_step at 2, good. simpl.
    destruct (is_bad c) eqn:Hc; simpl.
    + rewrite removeContact_middle.
      * rewrite IH.
        -- by rewrite <- app_assoc.
        -- rewrite fmap_app in *. rewrite fmap_cons in Hwf.
           apply NoDup_app in Hwf as (Hp & Hpl & Hl).
           apply NoDup_cons in Hl as [_ Hl].
           apply NoDup_app. repeat split; [done| |done].
           intros x Hx Hxl. apply (Hpl x Hx). by right.
      * rewrite fmap_app, fmap_cons in Hwf.
        apply NoDup_app in Hwf as (_ & Hpl & _).
        intros Hin. apply (Hpl _ Hin). by left.
    + replace (p ++ c :: l) with ((p ++ [c]) ++ l)
        by (by rewrite <- app_assoc).
      rewrite IH.
      * by rewrite <- app_assoc.
      * by rewrite <- app_assoc.
Qed.

Lemma clean_bucket_filter (dropped : list Contact) (b : Bucket) :
  bucket_wf b →
  clean_bucket dropped b
  = (List.filter good b, dropped ++ List.filter is_bad b).
Proof.
  intros Hwf. unfold clean_bucket, getContactList.
  apply (clean_steps b [] dropped Hwf).
Qed.

Lemma clean_buckets_filter (bs : Buckets) (dropped : list Contact) :
  Forall (λ kb, bucket_wf (snd kb)) bs →
  clean_buckets dropped bs
  = (map (λ kb, (fst kb, List.filter good (snd kb))) bs,
     dropped ++ concat (map (λ kb, List.filter is_bad (snd kb)) bs)).
Proof.
  revert dropped. induction bs as [|[k b] bs IH]; intros dropped Hwf; simpl.
  - by rewrite app_nil_r.
  - apply Forall_cons in Hwf as [Hb Hbs]. simpl in Hb.
    rewrite (clean_bucket_filter _ _ Hb), (IH _ Hbs).
    by rewrite <- app_assoc.
Qed.

(** C6.  After one run of the cleaner over a routing table whose
    buckets hold each node id once: every contact left in a bucket has
    a compatible protocol version, a port above 0 and an address that
    is not loopback unless STORJ_ALLOW_LOOPBACK is set; every contact
    that fails one of the checks is gone from its bucket and is in the
    dropped list; nothing else is dropped. *)
Theorem cleanRoutingTable_keeps_good (s : @State L _) :
  Forall (λ kb, bucket_wf (snd kb)) (_buckets s) →
  let '(s', dropped) := _cleanRoutingTable s in
  (∀ k b c, (k, b) ∈ _buckets s' → c ∈ b →
     isCompatibleVersion (protocol c) = true
     ∧ (0 < port c)%Z
     ∧ (isLoopback (address c) = true →
        Js.truthy_env STORJ_ALLOW_LOOPBACK = true))
  ∧ (∀ k b c, (k, b) ∈ _buckets s → c ∈ b → good c = false →
       c ∈ dropped ∧ ∀ k' b', (k', b') ∈ _buckets s' → c ∉ b')
  ∧ (∀ c, c ∈ dropped →
       good c = false ∧ ∃ k b, (k, b) ∈ _buckets s ∧ c ∈ b)
  ∧ (∀ k b c, (k, b) ∈ _buckets s → c ∈ b → good c = true →
       ∃ b', (k, b') ∈ _buckets s' ∧ c ∈ b').
Proof.
  intros Hwf. unfold _cleanRoutingTable.
  rewrite (clean_buckets_filter _ _ Hwf). simpl.
  assert (Hkept : ∀ k b c,
    (k, b) ∈ map (λ kb, (fst kb, List.filter good (snd kb))) (_buckets s) →
    c ∈ b → good c = true).
  { intros k b c Hkb Hc. apply list_elem_of_In, in_map_iff in Hkb.
    destruct Hkb as ([k0 b0] & [= <- <-] & _).
    apply list_elem_of_In, filter_In in Hc. apply Hc. }
  split; [|split; [|split]].
  - intros k b c Hkb Hc. apply good_checks. eauto.
  - intros k b c Hkb Hc Hbad. split.
    + apply list_elem_of_In, in_concat.
      exists (List.filter is_bad b). split.
      * apply in_map_iff. exists (k, b). split; [done|].
        by apply list_elem_of_In.
      * apply filter_In. split; [by apply list_elem_of_In|].
        unfold good in *. by destruct (is_bad c).
    + intros k' b' Hkb' Hc'. specialize (Hkept _ _ _ Hkb' Hc').
      congruence.
  - intros c Hd. apply list_elem_of_In, in_concat in Hd as (l & Hl & Hc).
    apply in_map_iff in Hl as ([k b] & <- & Hkb).
    apply filter_In in Hc as [Hc Hbad]. split.
    + unfold good. by rewrite Hbad.
    + exists k, b. split; by apply list_elem_of_In.
  - intros k b c Hkb Hc Hgood. exists (List.filter good b). split.
    + apply list_elem_of_In, in_map_iff. exists (k, b). split; [done|].
      by apply list_elem_of_In.
    + apply list_elem_of_In, filter_In. split; [|done].
      by apply list_elem_of_In.
Qed.

End CleanerFacts.

(** Two farmers and a loopback contact in one bucket, a farmer on
    protocol 999.0.0 in another: only the first farmer stays. *)
Lemma cleanRoutingTable_keeps_good_witness :
  Forall (λ kb, Kad.bucket_wf (snd kb)) Sample.table
  ∧ @Network._cleanRoutingTable _ Sample.ip Sample.crypto Sample.config
      (Sample.state Sample.table ∅)
    = (Sample.state [(159%nat, [Sample.farmer]); (158%nat, [])] ∅,
       [Sample.local_farmer; Sample.old_farmer])
  ∧ ∀ k b c,
      (k, b) ∈ [(159%nat, [Sample.farmer]); (158%nat, [] : Kad.Bucket)] →
      c ∈ b →
      @Utils.isCompatibleVersion Sample.config (Utils.protocol c) = true
      ∧ (0 < Utils.port c)%Z
      ∧ (@isLoopback Sample.ip (Utils.address c) = true →
         Js.truthy_env (@STORJ_ALLOW_LOOPBACK Sample.config) = true).
Proof.
  assert (Hwf : Forall (λ kb, Kad.bucket_wf (snd kb)) Sample.table).
  { unfold Kad.bucket_wf. repeat constructor; simpl;
      rewrite ?elem_of_cons, ?elem_of_nil; intuition discriminate. }
  split; [exact Hwf|]. split; [reflexivity|].
  exact (proj1 (@cleanRoutingTable_keeps_good _ Sample.ip Sample.crypto
                  Sample.config (Sample.state Sample.table ∅) Hwf)).
Defined.

(** Why the buckets must hold each node id once: [removeContact] finds
    its victim by node id, so a stale duplicate would shield itself. *)
Example cleaner_removes_by_node_id :
  let stale :=
    {| Utils.address := "127.0.0.1"; Utils.port := 0;
       Utils.nodeID := Utils.nodeID Sample.farmer;
       Utils.protocol := "999.0.0" |} in
  fst (@Network.clean_bucket Sample.ip Sample.config []
         [Sample.farmer; stale]) = [stale].
Proof. reflexivity. Qed.

(** ** Storage adapter keys *)

Section StorageFacts.
Context {Item Shard : Type}.
Import Storage.

Implicit Types (a : RAMStorageAdapter Item Shard) (cs : list (Call Item)).

Lemma keys_lookup a (k : string) :
  k ∈ _keys a ↔ is_Some (JsObject.own (_items a) !! k).
Proof.
  unfold _keys, JsObject.keys. by rewrite elem_of_elements, elem_of_dom.
Qed.

Lemma keys_call a (c : Call Item) (k : string) :
  k ∈ _keys (call a c)
  ↔ k ∈ _keys a ∨ (k ∈ put_keys [c] ∧ k ≠ "__proto__").
Proof.
  rewrite !keys_lookup. destruct c as [k' it|k']; simpl.
  - unfold JsObject.set. rewrite list_elem_of_singleton.
    destruct (String.eqb_spec k' "__proto__") as [->|Hne]; simpl.
    + intuition congruence.
    + rewrite lookup_insert_is_Some.
      destruct (decide (k' = k)); intuition congruence.
  - rewrite elem_of_nil. tauto.
Qed.

Lemma put_keys_cons (c : Call Item) cs :
  put_keys (c :: cs) = put_keys [c] ++ put_keys cs.
Proof. by destruct c. Qed.

Lemma keys_calls cs a (k : string) :
  k ∈ _keys (foldl call a cs)
  ↔ k ∈ _keys a ∨ (k ∈ put_keys cs ∧ k ≠ "__proto__").
Proof.
  revert a. induction cs as [|c cs IH]; intros a.
  - simpl. rewrite elem_of_nil. tauto.
  - rewrite put_keys_cons, elem_of_app. simpl foldl.
    rewrite IH, keys_call. tauto.
Qed.

Lemma keys_create (k : string) :
  k ∉ _keys (create : RAMStorageAdapter Item Shard).
Proof. rewrite keys_lookup. simpl. rewrite lookup_empty. by intros [? ?]. Qed.

(** C9 as the code has it.  The in-memory adapter lists exactly the keys
    items were put under, [__proto__] apart (a put under that name makes
    no own property of the items object); deleting a shard keeps the
    key, and there is no filter, so all its keys match the 40-hex
    pattern only if all keys put did.  The file-system adapter and the
    embedded-KV adapter list exactly the entries that match the
    pattern. *)
Theorem keys_ram_unfiltered_fs_filtered cs (readdir stored : list string) :
  let a : RAMStorageAdapter Item Shard := foldl call create cs in
  (∀ k, k ∈ _keys a ↔ k ∈ put_keys cs ∧ k ≠ "__proto__")
  ∧ (Forall (λ k, is_key k = true) (put_keys cs) →
     Forall (λ k, is_key k = true) (_keys a))
  ∧ (∀ k, k ∈ fs_keys readdir ↔ k ∈ readdir ∧ is_key k = true)
  ∧ (∀ k, k ∈ kv_keys stored ↔ k ∈ stored ∧ is_key k = true).
Proof.
  intros a.
  assert (Hk : ∀ k, k ∈ _keys a ↔ k ∈ put_keys cs ∧ k ≠ "__proto__").
  { intros k. unfold a. rewrite keys_calls.
    pose proof (keys_create k). tauto. }
  split; [exact Hk|]. split; [|split].
  - rewrite !Forall_forall. intros Hall k Hin. apply Hall. by apply Hk.
  - intros k. unfold fs_keys. by rewrite !list_elem_of_In, filter_In.
  - intros k. unfold kv_keys. by rewrite !list_elem_of_In, filter_In.
Qed.

End StorageFacts.

(** The directory listing of the adapter test, and the same names put
    into the in-memory adapter. *)
Lemma keys_ram_unfiltered_fs_filtered_witness :
  let good_keys :=
    ["1315fb9624340229e723a046b0214acd33747b6a";
     "1315fb9624340229e723a046b0214acd33747b6b"] in
  Forall (λ k, Storage.is_key k = true) good_keys
  ∧ Forall (λ k, Storage.is_key k = true)
      (Storage._keys
         (foldl Storage.call (Storage.create (Shard := string))
            [Storage.Put "1315fb9624340229e723a046b0214acd33747b6a" tt;
             Storage.Del "1315fb9624340229e723a046b0214acd33747b6a";
             Storage.Put "1315fb9624340229e723a046b0214acd33747b6b" tt]))
  ∧ Storage.fs_keys
      ["1315fb9624340229e723a046b0214acd33747b6a";
       "1315fb9624340229e723a046b0214acd33747b6b";
       ".DS_Store"; "Thumbs.db";
       "1315fb9624340229e723a046b0214acd33747b6c";
       "1315fb9624340229e723a046b0214acd33747b6e"]
    = ["1315fb9624340229e723a046b0214acd33747b6a";
       "1315fb9624340229e723a046b0214acd33747b6b";
       "1315fb9624340229e723a046b0214acd33747b6c";
       "1315fb9624340229e723a046b0214acd33747b6e"].
Proof.
  intros good_keys.
  assert (Hgood : Forall (λ k, Storage.is_key k = true) good_keys)
    by (repeat constructor).
  split; [exact Hgood|]. split; [|reflexivity].
  exact (proj1 (proj2 (keys_ram_unfiltered_fs_filtered
           [Storage.Put "1315fb9624340229e723a046b0214acd33747b6a" tt;
            Storage.Del "1315fb9624340229e723a046b0214acd33747b6a";
            Storage.Put "1315fb9624340229e723a046b0214acd33747b6b" tt]
           [] [])) Hgood).
Defined.

(** C9 fails as stated: an item put under '.DS_Store' shows up in the
    keys of the in-memory adapter. *)
Lemma ram_keys_lists_any_key :
  ¬ (∀ (cs : list (Storage.Call unit)) (k : string),
       k ∈ Storage._keys
             (foldl Storage.call (Storage.create (Shard := string)) cs) →
       Storage.is_key k = true).
Proof.
  intros Hclaim.
  specialize (Hclaim [Storage.Put ".DS_Store" tt] ".DS_Store").
  assert (Hin : ".DS_Store"
                ∈ Storage._keys
                    (foldl Storage.call (Storage.create (Shard := string))
                       [Storage.Put ".DS_Store" tt])).
  { apply keys_lookup. simpl. rewrite lookup_insert_eq. by eexists. }
  specialize (Hclaim Hin). discriminate Hclaim.
Qed.

(** ** The file multiplexer *)

Section MuxerFacts.
Import FileMuxer.

Lemma size_nonneg (chunk : string) : (0 ≤ size chunk)%Z.
Proof. unfold size. lia. Qed.

Lemma total_chunks (inputs : list Input) :
  total inputs
  = foldr (λ chunk acc, (size chunk + acc)%Z) 0%Z (concat inputs).
Proof. reflexivity. Qed.

(** One read, seen on the chunks still to come. *)
Lemma read_from_chunks (bytesRead length : Z) (inputs : list Input) :
  match concat inputs with
  | [] =>
      read_from bytesRead length inputs
      = (if (bytesRead =? length)%Z then End
         else Error "Unexpected end of input", bytesRead, [])
  | chunk :: more =>
      if (bytesRead + size chunk >? length)%Z
      then ∃ inputs',
             read_from bytesRead length inputs
             = (Error "Input exceeds the declared length", bytesRead,
                inputs')
      else ∃ inputs',
             read_from bytesRead length inputs
             = (Data chunk, (bytesRead + size chunk)%Z, inputs')
             ∧ concat inputs' = more
  end.
Proof.
  induction inputs as [|[|chunk more] rest IH]; simpl.
  - done.
  - exact IH.
  - destruct (bytesRead + size chunk >? length)%Z; eauto.
Qed.

(** Reading until the flow stops agrees with [deliver], once the fuel
    covers the chunks that are left. *)
Lemma flow_deliver (fuel : nat) (m : t) :
  (List.length (concat (_inputs m)) < fuel)%nat →
  flow fuel m
  = let '(out, stop) :=
      deliver (_bytesRead m) (_length m) (concat (_inputs m)) in
    (out, Some stop).
Proof.
  revert m. induction fuel as [|fuel IH]; intros m Hfuel; [lia|].
  simpl. unfold _read.
  pose proof (read_from_chunks (_bytesRead m) (_length m) (_inputs m))
    as Hread.
  destruct (concat (_inputs m)) as [|chunk more] eqn:Hchunks; simpl.
  - rewrite Hread. by destruct (_bytesRead m =? _length m)%Z.
  - destruct (_bytesRead m + size chunk >? _length m)%Z.
    + destruct Hread as [inputs' ->]. done.
    + destruct Hread as (inputs' & -> & Hmore).
      rewrite IH; simpl.
      * rewrite Hmore. by destruct (deliver _ _ more).
      * rewrite Hmore. simpl in Hfuel. lia.
Qed.

Lemma deliver_prefix (chunks : list string) (bytesRead length : Z) :
  ∃ rest, chunks = fst (deliver bytesRead length chunks) ++ rest.
Proof.
  revert bytesRead. induction chunks as [|c l IH]; intros bytesRead; simpl.
  - by exists [].
  - destruct (bytesRead + size c >? length)%Z; [by eexists|].
    destruct (IH (bytesRead + size c)%Z) as [rest Hrest].
    destruct (deliver _ _ l) as [out stop]. simpl in *.
    exists rest. by rewrite <- Hrest.
Qed.

Lemma deliver_exact (chunks : list string) (bytesRead length : Z) :
  (bytesRead + foldr (λ c acc, size c + acc) 0 chunks = length)%Z →
  deliver bytesRead length chunks = (chunks, End).
Proof.
  revert bytesRead. induction chunks as [|c l IH]; intros bytesRead; simpl.
  - intros Hlen. by destruct (Z.eqb_spec bytesRead length); [|lia].
  - intros Hlen.
    assert (0 ≤ foldr (λ c acc, size c + acc) 0 l)%Z as Hl.
    { clear. induction l as [|x l IH]; simpl; [lia|].
      pose proof (size_nonneg x). lia. }
    destruct (Z.gtb_spec (bytesRead + size c) length); [lia|].
    rewrite IH; [done | lia].
Qed.

Lemma deliver_excess (chunks : list string) (bytesRead length : Z) :
  (bytesRead ≤ length)%Z →
  (length < bytesRead + foldr (λ c acc, size c + acc) 0 chunks)%Z →
  snd (deliver bytesRead length chunks)
  = Error "Input exceeds the declared length".
Proof.
  revert bytesRead. induction chunks as [|c l IH]; intros bytesRead; simpl.
  - lia.
  - intros Hle Hex.
    destruct (Z.gtb_spec (bytesRead + size c) length); [done|].
    specialize (IH (bytesRead + size c)%Z).
    destruct (deliver _ _ l) as [out stop]. simpl in *.
    apply IH; lia.
Qed.

Lemma input_fields (m m' : t) (r : Input) :
  input m r = Js.Ok m' →
  _shards m' = _shards m ∧ _length m' = _length m
  ∧ _added m' = (_added m + 1)%Z ∧ _bytesRead m' = _bytesRead m
  ∧ _inputs m' = _inputs m ++ [r] ∧ (_added m < _shards m)%Z.
Proof.
  unfold input. destruct (Z.ltb_spec (_added m) (_shards m)); [|done].
  by intros [= <-].
Qed.

Lemma input_all_fields (readables : list Input) (m m' : t) :
  input_all m readables = Js.Ok m' →
  _shards m' = _shards m ∧ _length m' = _length m
  ∧ _added m' = (_added m + Z.of_nat (List.length readables))%Z
  ∧ _bytesRead m' = _bytesRead m
  ∧ _inputs m' = _inputs m ++ readables.
Proof.
  revert m. induction readables as [|r rs IH]; intros m; simpl.
  - intros [= <-]. rewrite app_nil_r. repeat split; lia.
  - destruct (input m r) as [m1|e] eqn:Hin; [|done].
    intros Hall. apply input_fields in Hin as (Hs & Hl & Ha & Hb & Hi & _).
    apply IH in Hall as (Hs' & Hl' & Ha' & Hb' & Hi').
    rewrite Hs', Hl', Ha', Hb', Hi', Hs, Hl, Ha, Hb, Hi.
    rewrite <- app_assoc. repeat split; lia.
Qed.

Lemma create_fields (o : Options) (m : t) :
  create o = Js.Ok m →
  shards o = Js.Number (_shards m) ∧ length o = Js.Number (_length m)
  ∧ (0 < _shards m)%Z ∧ (0 < _length m)%Z
  ∧ _added m = 0%Z ∧ _bytesRead m = 0%Z ∧ _inputs m = [].
Proof.
  unfold create, _checkOptions.
  destruct (shards o) as [|s|]; try done.
  destruct (Z.leb_spec s 0); [done|].
  destruct (length o) as [|l|]; try done.
  destruct (Z.leb_spec l 0); [done|].
  intros [= <-]. simpl. repeat split; lia.
Qed.

End MuxerFacts.

Section MuxerClaims.
Import FileMuxer.

(** C1.  A muxer for 4 shards and 71 bytes, fed the readables that
    emit "1".."10", "11".."20", "21".."30" and "31".."40", emits
    "1234...3940" and ends.  In general the chunks that come out are the
    chunks of input 0 in order, then those of input 1, and so on: a
    prefix of the inputs laid end to end, and all of it, followed by
    the end of the stream, when the sizes add up to the declared
    length. *)
Theorem mux_in_index_order :
  (∃ m0 m out,
     create {| shards := Js.Number 4; length := Js.Number 71 |} = Js.Ok m0
     ∧ input_all m0 Sample.readables = Js.Ok m
     ∧ flow (reads_needed m) m = (out, Some End)
     ∧ collect out
       = "12345678910111213141516171819202122232425262728293031323334353637383940")
  ∧ (∀ (m : t) (fuel : nat),
       (reads_needed m ≤ fuel)%nat →
       let '(out, stop) := flow fuel m in
       stop ≠ None
       ∧ (∃ rest, concat (_inputs m) = out ++ rest)
       ∧ ((_bytesRead m + total (_inputs m))%Z = _length m →
          out = concat (_inputs m) ∧ stop = Some End)).
Proof.
  split.
  - eexists _, _, _.
    split; [reflexivity|]. split; [reflexivity|].
    split; [vm_compute; reflexivity | reflexivity].
  - intros m fuel Hfuel. unfold reads_needed in Hfuel.
    rewrite flow_deliver by lia.
    pose proof (deliver_prefix (concat (_inputs m)) (_bytesRead m)
                  (_length m)) as Hpre.
    pose proof (deliver_exact (concat (_inputs m)) (_bytesRead m)
                  (_length m)) as Hex.
    destruct (deliver _ _ _) as [out stop]. simpl in Hpre.
    split; [done|]. split; [exact Hpre|].
    intros Hlen. rewrite total_chunks in Hlen.
    specialize (Hex Hlen). by injection Hex as -> ->.
Qed.

(** C4.  Construction: [shards] absent or not a number, then [shards]
    zero or negative, then (with [shards] in order) [length] absent or
    not a number, then [length] zero or negative, each throw their own
    message; and a muxer whose inputs hold more bytes than the declared
    length stops with 'Input exceeds the declared length' when read. *)
Theorem muxer_rejects_bad_parameters :
  (∀ o, Js.is_number (shards o) = false →
        create o = Js.Throw "You must supply a shards parameter")
  ∧ (∀ o s, shards o = Js.Number s → (s ≤ 0)%Z →
            create o = Js.Throw "Cannot multiplex a 0 shard stream")
  ∧ (∀ o s, shards o = Js.Number s → (0 < s)%Z →
            Js.is_number (length o) = false →
            create o = Js.Throw "You must supply a length parameter")
  ∧ (∀ o s l, shards o = Js.Number s → (0 < s)%Z →
              length o = Js.Number l → (l ≤ 0)%Z →
              create o = Js.Throw "Cannot multiplex a 0 length stream")
  ∧ (∀ o m0 readables m (fuel : nat),
       create o = Js.Ok m0 →
       input_all m0 readables = Js.Ok m →
       (_length m < total readables)%Z →
       (reads_needed m ≤ fuel)%nat →
       snd (flow fuel m)
       = Some (Error "Input exceeds the declared length")).
Proof.
  unfold create, _checkOptions. repeat split.
  - intros o Hs. by destruct (shards o).
  - intros o s -> Hs. by destruct (Z.leb_spec s 0); [|lia].
  - intros o s -> Hs Hl. destruct (Z.leb_spec s 0); [lia|].
    by destruct (length o).
  - intros o s l -> Hs -> Hl. destruct (Z.leb_spec s 0); [lia|].
    by destruct (Z.leb_spec l 0); [|lia].
  - intros o m0 readables m fuel Hcreate Hall Hlong Hfuel.
    apply create_fields in Hcreate as (_ & _ & _ & Hlen & _ & Hb0 & Hi0).
    apply input_all_fields in Hall as (_ & Hl & _ & Hb & Hi).
    rewrite Hi0 in Hi. simpl in Hi.
    unfold reads_needed in Hfuel. rewrite flow_deliver by lia.
    pose proof (deliver_excess (concat (_inputs m)) (_bytesRead m)
                  (_length m)) as Hex.
    destruct (deliver _ _ _) as [out stop]. simpl in *.
    f_equal. apply Hex.
    + lia.
    + rewrite Hi, <- total_chunks. lia.
Qed.

(** C3 as the code has it.  [input] on a muxer whose [_added] has
    reached [_shards] throws 'Inputs exceed defined number of shards';
    through [input] alone a muxer built for n shards registers at most
    n inputs; through the bridge client's queue worker, which raises
    [_shards] on a full muxer before it calls [input], the count of
    registered inputs stays within the current [_shards], not within
    n. *)
Theorem muxer_inputs_within_current_shards (o : Options) (m0 : t) (n : Z) :
  create o = Js.Ok m0 →
  shards o = Js.Number n →
  (∀ m r, _added m = _shards m →
          input m r = Js.Throw "Inputs exceed defined number of shards")
  ∧ (∀ readables m,
       input_all m0 readables = Js.Ok m →
       _shards m = n
       ∧ _added m = Z.of_nat (List.length readables)
       ∧ (_added m ≤ n)%Z)
  ∧ (∀ tasks m,
       BridgeClient.work m0 tasks = Js.Ok m →
       (_added m ≤ _shards m)%Z ∧ (n ≤ _shards m)%Z).
Proof.
  intros Hcreate Hn.
  apply create_fields in Hcreate as (Hs & _ & Hpos & _ & Ha0 & _ & _).
  rewrite Hn in Hs. injection Hs as ->. split; [|split].
  - intros m r Hfull. unfold input.
    by destruct (Z.ltb_spec (_added m) (_shards m)); [lia|].
  - assert (Hinv : ∀ readables m1 m,
      input_all m1 readables = Js.Ok m → (_added m1 ≤ _shards m1)%Z →
      (_added m ≤ _shards m)%Z).
    { induction readables as [|r rs IH]; intros m1 m; simpl.
      - by intros [= <-].
      - destruct (input m1 r) as [m2|] eqn:Hin; [|done].
        intros Hall Hle. apply (IH _ _ Hall).
        apply input_fields in Hin as (Hs & _ & Ha & _ & _ & Hlt). lia. }
    intros readables m Hall.
    pose proof (Hinv _ _ _ Hall) as Hle.
    apply input_all_fields in Hall as (Hs & _ & Ha & _ & _).
    rewrite Hs in *. split; [done|]. split; lia.
  - assert (Hinv : ∀ tasks m1 m,
      BridgeClient.work m1 tasks = Js.Ok m →
      (_added m1 ≤ _shards m1)%Z →
      (_added m ≤ _shards m)%Z ∧ (_shards m1 ≤ _shards m)%Z).
    { induction tasks as [|p ps IH]; intros m1 m; simpl.
      - intros [= <-]. lia.
      - destruct (BridgeClient._addInputToMultiplexer m1 p) as [m2|]
          eqn:Hadd; [|done].
        intros Hwork Hle.
        assert ((_added m2 ≤ _shards m2)%Z ∧ (_shards m1 ≤ _shards m2)%Z)
          as [Hle2 Hmono].
        { unfold BridgeClient._addInputToMultiplexer in Hadd.
          destruct p as [p|]; [|injection Hadd as <-; lia].
          destruct (BridgeClient.channel p) as [inputStream|]; [|done].
          apply input_fields in Hadd as (Hs & _ & Ha & _ & _ & Hlt).
          destruct (_added m1 =? _shards m1)%Z; simpl in *; lia. }
        destruct (IH _ _ Hwork Hle2). lia. }
    intros tasks m Hwork. apply (Hinv _ _ _ Hwork). lia.
Qed.

End MuxerClaims.

Section MuxerWitnesses.
Import FileMuxer.

(** The muxer of the ordering test, inputs registered. *)
Lemma mux_in_index_order_witness :
  let m := {| _shards := 4; _length := 71; _added := 4; _bytesRead := 0;
              _inputs := Sample.readables |} in
  (reads_needed m ≤ 41)%nat
  ∧ (_bytesRead m + total (_inputs m))%Z = _length m
  ∧ flow 41 m = (concat Sample.readables, Some End).
Proof.
  intros m.
  assert (Hfuel : (reads_needed m ≤ 41)%nat) by (vm_compute; lia).
  assert (Hlen : (_bytesRead m + total (_inputs m))%Z = _length m)
    by reflexivity.
  split; [exact Hfuel|]. split; [exact Hlen|].
  pose proof (proj2 mux_in_index_order m 41%nat Hfuel) as Hflow.
  destruct (flow 41 m) as [out stop].
  destruct Hflow as (_ & _ & Hall).
  destruct (Hall Hlen) as [-> ->]. reflexivity.
Defined.

(** The constructor calls of the validation tests, and the readable
    that delivers three bytes to a muxer declared for two. *)
Lemma muxer_rejects_bad_parameters_witness :
  create {| shards := Js.Undefined; length := Js.Number 128 |}
  = Js.Throw "You must supply a shards parameter"
  ∧ create {| shards := Js.Str "2"; length := Js.Number 128 |}
    = Js.Throw "You must supply a shards parameter"
  ∧ create {| shards := Js.Number (-1); length := Js.Number 128 |}
    = Js.Throw "Cannot multiplex a 0 shard stream"
  ∧ create {| shards := Js.Number 2; length := Js.Undefined |}
    = Js.Throw "You must supply a length parameter"
  ∧ create {| shards := Js.Number 2; length := Js.Number 0 |}
    = Js.Throw "Cannot multiplex a 0 length stream"
  ∧ snd (flow 4 {| _shards := 1; _length := 2; _added := 1;
                   _bytesRead := 0; _inputs := [Sample.bytes_321] |})
    = Some (Error "Input exceeds the declared length").
Proof.
  destruct muxer_rejects_bad_parameters as (Hs & Hs0 & Hl & Hl0 & Hread).
  split; [|split; [|split; [|split; [|split]]]].
  - apply Hs. reflexivity.
  - apply Hs. reflexivity.
  - apply (Hs0 _ (-1)%Z); [reflexivity | lia].
  - apply (Hl _ 2%Z); [reflexivity | lia | reflexivity].
  - apply (Hl0 _ 2%Z 0%Z); [reflexivity | lia | reflexivity | lia].
  - apply (Hread {| shards := Js.Number 1; length := Js.Number 2 |}
             {| _shards := 1; _length := 2; _added := 0; _bytesRead := 0;
                _inputs := [] |}
             [Sample.bytes_321]);
      [reflexivity | reflexivity | vm_compute; reflexivity
      | vm_compute; lia].
Defined.

(** A muxer for two shards: two inputs register, the third throws. *)
Lemma muxer_inputs_within_current_shards_witness :
  let m2 := {| _shards := 2; _length := 4096; _added := 2;
               _bytesRead := 0; _inputs := [[]; []] |} in
  create {| shards := Js.Number 2; length := Js.Number 4096 |}
  = Js.Ok {| _shards := 2; _length := 4096; _added := 0; _bytesRead := 0;
             _inputs := [] |}
  ∧ input m2 [] = Js.Throw "Inputs exceed defined number of shards".
Proof.
  intros m2. split; [reflexivity|].
  apply (proj1 (muxer_inputs_within_current_shards
                  {| shards := Js.Number 2; length := Js.Number 4096 |}
                  {| _shards := 2; _length := 4096; _added := 0;
                     _bytesRead := 0; _inputs := [] |}
                  2%Z eq_refl eq_refl)).
  reflexivity.
Defined.

(** C3 fails as stated: behind a muxer the bridge client built for one
    pointer, its queue worker registers a second input. *)
Lemma muxer_grows_past_declared_shards :
  ¬ (∀ (n len : Z) (m0 m : t) (tasks : list (option BridgeClient.Pointer)),
       create {| shards := Js.Number n; length := Js.Number len |}
       = Js.Ok m0 →
       BridgeClient.work m0 tasks = Js.Ok m →
       (_added m ≤ n)%Z).
Proof.
  intros Hclaim.
  specialize (Hclaim 1%Z 5%Z
    {| _shards := 1; _length := 5; _added := 0; _bytesRead := 0;
       _inputs := [] |}
    {| _shards := 2; _length := 10; _added := 2; _bytesRead := 0;
       _inputs := [["hello"]; ["storj"]] |}
    [Some (Sample.pointer "hello"); Some (Sample.pointer "storj")]
    eq_refl eq_refl).
  simpl in Hclaim. lia.
Qed.

(** Reading a muxer nothing was registered on: 'Unexpected end of
    input'. *)
Example read_without_inputs :
  snd (_read {| _shards := 2; _length := 128; _added := 0; _bytesRead := 0;
                _inputs := [] |})
  = Error "Unexpected end of input".
Proof. reflexivity. Qed.

(** The same run starts from the muxer [resolveFileFromPointers]
    creates for the first slice of pointers. *)
Example new_muxer_one_pointer :
  BridgeClient.new_muxer [Sample.pointer "hello"]
  = Js.Ok {| _shards := 1; _length := 5; _added := 0; _bytesRead := 0;
             _inputs := [] |}.
Proof. reflexivity. Qed.

End MuxerWitnesses.

(** ** Signing and verifying *)

Section EnvelopeFacts.
Context {L : Type} `{IpLib} `{CryptoLib} `{RateLimiterI L} `{Config}
        `{KeyPairI}.
Import Utils Kad Network Overlay.

Implicit Types (s : @State L _) (message : Message) (contact : Contact).

Lemma signMessage_id (t : Z) message :
  id (_signMessage t message) = id message.
Proof. by destruct message. Qed.

Lemma signMessage_method (t : Z) message :
  method (_signMessage t message) = method message.
Proof. by destruct message. Qed.

Lemma signMessage_envelope (t : Z) message :
  envelope (_signMessage t message)
  = {| nonce := Some t; signature := Some (sign (id message, Some t)) |}.
Proof. by destruct message. Qed.

(** Once validation has let a message through, the whole of
    [_verifyMessage] is the envelope check. *)
Lemma verifyMessage_through (now : Z) s message contact :
  is_bad contact = false ∨ not_exempt (method message) = false →
  snd (_verifyMessage now s message contact)
  = snd (check_envelope now s message contact)
  ∧ _pubkeys (fst (_verifyMessage now s message contact))
    = _pubkeys (fst (check_envelope now s message contact)).
Proof.
  intros Hthrough. unfold _verifyMessage.
  pose proof (validateContact_result s contact) as Hres.
  pose proof (validateContact_pubkeys s contact) as Hpk.
  destruct (_validateContact s contact) as [s1 err]. simpl in *.
  assert (Hsame : snd (check_envelope now s1 message contact)
                  = snd (check_envelope now s message contact)
                  ∧ _pubkeys (fst (check_envelope now s1 message contact))
                    = _pubkeys (fst (check_envelope now s message contact))).
  { split; [apply check_envelope_verdict|].
    unfold check_envelope, _verifySignature.
    destruct (expired _ _); [done|].
    destruct (_createSignatureObject _); [|done].
    destruct (signature _); [|done].
    destruct (verify _ _ _); simpl; by rewrite Hpk. }
  destruct err as [e|]; [|done].
  destruct Hthrough as [Hok | Hex].
  - apply Hres in Hok. done.
  - by rewrite Hex.
Qed.

(** X1.  Round trip of the envelope: a message signed by [_signMessage]
    at time [t] with a key whose signatures decode and verify for the
    sender's node id is accepted by [_verifyMessage] at any time up to
    [t + NONCE_EXPIRE], and refused as expired after that (the contact
    being one that validation lets through). *)
Theorem signed_message_verifies (t now : Z) s message contact :
  is_Some (fromCompact (sign (id message, Some t))) →
  verify (nodeID contact) (id message, Some t) (sign (id message, Some t))
  = true →
  is_bad contact = false ∨ not_exempt (method message) = false →
  ((now ≤ NONCE_EXPIRE + t)%Z →
   snd (_verifyMessage now s (_signMessage t message) contact) = None)
  ∧ ((NONCE_EXPIRE + t < now)%Z →
     snd (_verifyMessage now s (_signMessage t message) contact)
     = Some "Message signature expired").
Proof.
  intros [so Hso] Hver Hthrough.
  rewrite <- (signMessage_method t) in Hthrough.
  destruct (verifyMessage_through now s _ contact Hthrough) as [-> _].
  unfold check_envelope, _verifySignature, _createSignatureObject, expired.
  rewrite signMessage_envelope, signMessage_id. simpl. split; intros Hnow.
  - destruct (Z.gtb_spec now (NONCE_EXPIRE + t)); [lia|].
    by rewrite Hso, Hver.
  - by destruct (Z.gtb_spec now (NONCE_EXPIRE + t)); [|lia].
Qed.

(** X2.  [_verifySignature] stores the public key recovered from the
    signature under the sender's node id before it verifies: whenever a
    message reaches the signature check with a signature that decodes,
    the key kept for that node id is replaced, also when verification
    then fails; the keys of other node ids are left alone. *)
Theorem verifyMessage_records_key (now : Z) s message contact
    (sg : string) (so : SigObj) :
  is_bad contact = false ∨ not_exempt (method message) = false →
  expired now (nonce (envelope message)) = false →
  signature (envelope message) = Some sg →
  fromCompact sg = Some so →
  let s' := fst (_verifyMessage now s message contact) in
  _pubkeys s' !! nodeID contact
  = Some (toPublicKey (id message, nonce (envelope message)) so)
  ∧ (∀ other, other ≠ nodeID contact →
              _pubkeys s' !! other = _pubkeys s !! other)
  ∧ (verify (nodeID contact) (id message, nonce (envelope message)) sg
     = false →
     snd (_verifyMessage now s message contact)
     = Some "Signature verification failed").
Proof.
  intros Hthrough Hfresh Hsg Hso s'. unfold s'.
  destruct (verifyMessage_through now s message contact Hthrough)
    as [-> ->].
  unfold check_envelope, _verifySignature, _createSignatureObject.
  rewrite Hfresh, Hsg, Hso.
  destruct (verify _ _ _); simpl.
  - split; [apply lookup_insert_eq|]. split; [|done].
    intros other Hne. by apply lookup_insert_ne.
  - split; [apply lookup_insert_eq|]. split; [|done].
    intros other Hne. by apply lookup_insert_ne.
Qed.

Lemma removeContact_cons (x : Contact) (b : Bucket) (c : Contact) :
  removeContact (x :: b) c
  = if String.eqb (nodeID x) (nodeID c) then b else x :: removeContact b c.
Proof.
  unfold removeContact. simpl.
  destruct (String.eqb _ _); [done|]. by destruct (indexOf b c).
Qed.

Lemma removeContact_gone (b : Bucket) (c x : Contact) :
  bucket_wf b → x ∈ removeContact b c → nodeID x ≠ nodeID c ∧ x ∈ b.
Proof.
  unfold bucket_wf. induction b as [|y b IH]; intros Hwf Hin.
  - by apply elem_of_nil in Hin.
  - rewrite fmap_cons in Hwf. apply NoDup_cons in Hwf as [Hy Hwf].
    rewrite removeContact_cons in Hin.
    destruct (String.eqb_spec (nodeID y) (nodeID c)) as [Heq|Hne].
    + split; [|by right]. intros Hx. apply Hy. rewrite Heq, <- Hx.
      by apply list_elem_of_fmap_2.
    + apply elem_of_cons in Hin as [->|Hin]; [split; [done | by left]|].
      destruct (IH Hwf Hin). split; [done | by right].
Qed.

Lemma removeContact_others (b : Bucket) (c x : Contact) :
  x ∈ b → nodeID x ≠ nodeID c → x ∈ removeContact b c.
Proof.
  induction b as [|y b IH]; intros Hin Hne; [done|].
  rewrite removeContact_cons.
  apply elem_of_cons in Hin as [->|Hin].
  - destruct (String.eqb_spec (nodeID y) (nodeID c)); [done | by left].
  - destruct (String.eqb _ _); [done|]. right. by apply IH.
Qed.

(** X3.  A contact that fails validation is taken out of the routing
    table whatever becomes of its message, exempt methods included:
    afterwards the bucket of its node id holds no contact with that
    node id, every other contact is still where it was, and no bucket
    gained a contact. *)
Theorem failed_validation_drops_contact (now : Z) s message contact :
  is_bad contact = true →
  Forall (λ kb, bucket_wf (snd kb)) (_buckets s) →
  let s' := fst (_verifyMessage now s message contact) in
  _buckets s' = router_removeContact (_buckets s) contact
  ∧ (∀ b x, (getBucketIndex (nodeID contact), b) ∈ _buckets s' →
            x ∈ b → nodeID x ≠ nodeID contact)
  ∧ (∀ k b x, (k, b) ∈ _buckets s → x ∈ b → nodeID x ≠ nodeID contact →
              ∃ b', (k, b') ∈ _buckets s' ∧ x ∈ b')
  ∧ (∀ k b' x, (k, b') ∈ _buckets s' → x ∈ b' →
               ∃ b, (k, b) ∈ _buckets s ∧ x ∈ b).
Proof.
  intros Hbad Hwf s'.
  assert (Hbs : _buckets s' = router_removeContact (_buckets s) contact).
  { unfold s', _verifyMessage.
    pose proof (validateContact_result s contact) as Hres.
    assert (Hb1 : _buckets (fst (_validateContact s contact))
                  = router_removeContact (_buckets s) contact).
    { unfold _validateContact, is_bad in *.
      destruct (isCompatibleVersion _), (isValidContact _ _); done. }
    destruct (_validateContact s contact) as [s1 err]. simpl in *.
    assert (Hce : _buckets (fst (check_envelope now s1 message contact))
                  = _buckets s1).
    { unfold check_envelope, _verifySignature.
      destruct (expired _ _); [done|].
      destruct (_createSignatureObject _); [|done].
      destruct (signature _); [|done]. by destruct (verify _ _ _). }
    destruct err as [e|].
    - destruct (not_exempt _); simpl; congruence.
    - rewrite Hce. done. }
  split; [exact Hbs|]. rewrite Hbs. unfold router_removeContact.
  rewrite Forall_forall in Hwf. split; [|split].
  - intros b x Hkb Hx.
    apply list_elem_of_In, in_map_iff in Hkb as ([k0 b0] & Heq & Hin).
    simpl in Heq. apply list_elem_of_In in Hin.
    destruct (Nat.eqb_spec k0 (getBucketIndex (nodeID contact)));
      injection Heq as Hk Hb; subst b.
    + apply (removeContact_gone b0 contact x); [|done].
      apply (Hwf _ Hin).
    + done.
  - intros k b x Hkb Hx Hne.
    destruct (Nat.eqb_spec k (getBucketIndex (nodeID contact))) as [Hk|Hk].
    + exists (removeContact b contact). split.
      * apply list_elem_of_In, in_map_iff. exists (k, b). simpl.
        destruct (Nat.eqb_spec k (getBucketIndex (nodeID contact)));
          [|done]. split; [done | by apply list_elem_of_In].
      * by apply removeContact_others.
    + exists b. split; [|done].
      apply list_elem_of_In, in_map_iff. exists (k, b). simpl.
      destruct (Nat.eqb_spec k (getBucketIndex (nodeID contact)));
        [done|]. split; [done | by apply list_elem_of_In].
  - intros k b' x Hkb Hx.
    apply list_elem_of_In, in_map_iff in Hkb as ([k0 b0] & Heq & Hin).
    simpl in Heq. apply list_elem_of_In in Hin.
    destruct (Nat.eqb_spec k0 (getBucketIndex (nodeID contact)));
      injection Heq as Hk Hb; subst k b'.
    + exists b0. split; [done|].
      by apply (removeContact_gone b0 contact x (Hwf _ Hin)).
    + by exists b0.
Qed.

End EnvelopeFacts.

Section EnvelopeWitnesses.
#[local] Existing Instance Sample.ip.
#[local] Existing Instance Sample.crypto.
#[local] Existing Instance Sample.limiter.
#[local] Existing Instance Sample.config.
#[local] Existing Instance Fixtures.keypair.
Import Utils Kad Network Overlay.

(** A PING signed by the farmer at time 1000 verifies 300000 ms later,
    and no longer one millisecond after that. *)
Lemma signed_message_verifies_witness :
  snd (_verifyMessage 301000 (Sample.state [] ∅)
         (_signMessage 1000 (Request "d1a3" "PING" empty_object))
         Sample.farmer) = None
  ∧ snd (_verifyMessage 301001 (Sample.state [] ∅)
           (_signMessage 1000 (Request "d1a3" "PING" empty_object))
           Sample.farmer) = Some "Message signature expired".
Proof.
  assert (Hdec : is_Some (fromCompact
                   (sign (id (Request "d1a3" "PING" empty_object),
                          Some 1000%Z)))) by (by eexists).
  assert (Hver : verify (nodeID Sample.farmer)
                   (id (Request "d1a3" "PING" empty_object), Some 1000%Z)
                   (sign (id (Request "d1a3" "PING" empty_object),
                          Some 1000%Z)) = true) by reflexivity.
  assert (Hok : is_bad Sample.farmer = false
                ∨ not_exempt (method (Request "d1a3" "PING" empty_object))
                  = false) by (left; reflexivity).
  split.
  - apply (proj1 (signed_message_verifies 1000 301000 (Sample.state [] ∅)
                    (Request "d1a3" "PING" empty_object) Sample.farmer
                    Hdec Hver Hok)). cbn. lia.
  - apply (proj2 (signed_message_verifies 1000 301001 (Sample.state [] ∅)
                    (Request "d1a3" "PING" empty_object) Sample.farmer
                    Hdec Hver Hok)). cbn. lia.
Defined.

(** A request that claims to come from the farmer but carries the
    signature "forged": refused, and yet "forged" is now the key on
    record for the farmer. *)
Lemma verifyMessage_records_key_witness :
  let forged :=
    Request "d1a3" "PING"
      {| nonce := Some 1000%Z; signature := Some "forged" |} in
  let s' := fst (_verifyMessage 2000 (Sample.state [] ∅) forged
                   Sample.farmer) in
  _pubkeys s' !! nodeID Sample.farmer = Some "forged"
  ∧ snd (_verifyMessage 2000 (Sample.state [] ∅) forged Sample.farmer)
    = Some "Signature verification failed".
Proof.
  intros forged s'.
  assert (Hok : is_bad Sample.farmer = false
                ∨ not_exempt (method forged) = false)
    by (left; reflexivity).
  assert (Hfresh : expired 2000 (nonce (envelope forged)) = false)
    by reflexivity.
  destruct (verifyMessage_records_key 2000 (Sample.state [] ∅) forged
              Sample.farmer "forged" "forged" Hok Hfresh eq_refl eq_refl)
    as (Hkey & _ & Hfail).
  split; [exact Hkey | exact (Hfail eq_refl)].
Defined.

(** A PROBE from the farmer on protocol 999.0.0: the farmer is taken out
    of bucket 40, the other contacts stay. *)
Lemma failed_validation_drops_contact_witness :
  let probe := Sample.signed_request Sample.old_farmer "PROBE" 0 in
  _buckets (fst (_verifyMessage 1000 (Sample.state Fixtures.table ∅) probe
                   Sample.old_farmer))
  = [(40%nat, [Sample.farmer]); (7%nat, [Sample.local_farmer])]
  ∧ snd (_verifyMessage 1000 (Sample.state Fixtures.table ∅) probe
           Sample.old_farmer) = None.
Proof.
  intros probe.
  assert (Hbad : is_bad Sample.old_farmer = true) by reflexivity.
  assert (Hwf : Forall (λ kb, bucket_wf (snd kb))
                  (_buckets (Sample.state Fixtures.table ∅))).
  { unfold bucket_wf. repeat constructor; simpl;
      rewrite ?elem_of_cons, ?elem_of_nil; intuition discriminate. }
  destruct (failed_validation_drops_contact 1000
              (Sample.state Fixtures.table ∅) probe Sample.old_farmer
              Hbad Hwf) as (Hbs & _).
  split; [rewrite Hbs; reflexivity | reflexivity].
Defined.

End EnvelopeWitnesses.

(** ** Joining the overlay *)

Section DetectFacts.
Import Overlay.
Context {A : Type} (iterator : A → bool).

Lemma detectSeries_found (pre post : list A) (x : A) :
  Forall (λ y, iterator y = false) pre →
  iterator x = true →
  detectSeries iterator (pre ++ x :: post) = (Some x, pre ++ [x]).
Proof.
  intros Hpre Hx. induction Hpre as [|y pre Hy _ IH]; simpl.
  - by rewrite Hx.
  - by rewrite Hy, IH.
Qed.

Lemma detectSeries_none (arr : list A) :
  Forall (λ y, iterator y = false) arr →
  detectSeries iterator arr = (None, arr).
Proof.
  intros Harr. induction Harr as [|y arr Hy _ IH]; simpl; [done|].
  by rewrite Hy, IH.
Qed.

(** Every list is of one of the two shapes. *)
Lemma detect_split (arr : list A) :
  Forall (λ y, iterator y = false) arr
  ∨ ∃ pre x post,
      arr = pre ++ x :: post
      ∧ Forall (λ y, iterator y = false) pre ∧ iterator x = true.
Proof.
  induction arr as [|y arr IH]; [by left|].
  destruct (iterator y) eqn:Hy.
  - right. exists [], y, arr. by repeat split.
  - destruct IH as [Hall | (pre & x & post & -> & Hpre & Hx)].
    + left. by constructor.
    + right. exists (y :: pre), x, post. repeat split; [|done].
      by constructor.
Qed.

End DetectFacts.

Section EnterOverlayFacts.
Import Utils Overlay.
Context (connect : string → option string)
        (shuffle : list Contact → list Contact)
        (getContactURL : Contact → string).

Abbreviation enter := (_enterOverlay connect shuffle getContactURL).
Abbreviation trySeeds := (_trySeeds connect).

(** X4.  [_enterOverlay] with seeds configured tries them in the order
    given and stops at the first that connects: later seeds are not
    contacted, and it fails with 'Failed to join the network' when none
    connects.  Without seeds and with the bridge switched off it reports
    success without contacting anyone; with a bridge, an error of the
    bridge becomes 'Failed to discover seeds from bridge: ...', and
    otherwise the shuffled contacts of the bridge replace the seeds and
    are tried the same way. *)
Theorem enterOverlay_first_seed_wins (o : JoinOptions)
    (contactList : Js.result (list Contact)) :
  (∀ pre uri post,
     Forall (λ u, connects connect u = false) pre →
     connects connect uri = true → uri ≠ "" →
     trySeeds (pre ++ uri :: post) = (pre ++ [uri], None))
  ∧ (∀ uris,
       Forall (λ u, connects connect u = false) uris →
       trySeeds uris = (uris, Some "Failed to join the network"))
  ∧ (seeds o ≠ [] → enter o contactList = (o, trySeeds (seeds o)))
  ∧ (seeds o = [] → bridge o = None →
     enter o contactList = (o, ([], None)))
  ∧ (∀ b message,
       seeds o = [] → bridge o = Some b →
       contactList = Js.Throw message →
       enter o contactList
       = (o, ([], Some ("Failed to discover seeds from bridge: "
                        +:+ message))))
  ∧ (∀ b found,
       seeds o = [] → bridge o = Some b → contactList = Js.Ok found →
       enter o contactList
       = ({| seeds := map getContactURL (shuffle found); bridge := Some b |},
          trySeeds (map getContactURL (shuffle found)))).
Proof.
  unfold _enterOverlay, _trySeeds. repeat split.
  - intros pre uri post Hpre Huri Hne.
    rewrite (detectSeries_found _ pre post uri Hpre Huri).
    by destruct (String.eqb_spec uri "").
  - intros uris Hall. by rewrite (detectSeries_none _ _ Hall).
  - intros Hne. by destruct (seeds o).
  - by intros -> ->.
  - by intros b message -> -> ->.
  - by intros b found -> -> ->.
Qed.

End EnterOverlayFacts.

(** Of three seeds only the second answers: the first two are tried, the
    third is left alone. *)
Lemma enterOverlay_first_seed_wins_witness :
  Overlay._enterOverlay Fixtures.connect id Utils.address
    {| Overlay.seeds := [Fixtures.seed1; Fixtures.seed2; Fixtures.seed3];
       Overlay.bridge := None |} (Js.Ok [])
  = ({| Overlay.seeds := [Fixtures.seed1; Fixtures.seed2; Fixtures.seed3];
        Overlay.bridge := None |},
     ([Fixtures.seed1; Fixtures.seed2], None)).
Proof.
  destruct (enterOverlay_first_seed_wins Fixtures.connect id
              Utils.address
              {| Overlay.seeds :=
                   [Fixtures.seed1; Fixtures.seed2; Fixtures.seed3];
                 Overlay.bridge := None |} (Js.Ok []))
    as (Hfirst & _ & Hseeds & _).
  rewrite Hseeds by discriminate.
  assert (Hfails : Forall (λ u, Overlay.connects Fixtures.connect u = false)
                     [Fixtures.seed1]) by (repeat constructor).
  assert (Hne : Fixtures.seed2 ≠ "") by discriminate.
  exact (f_equal (pair _)
           (Hfirst [Fixtures.seed1] Fixtures.seed2 [Fixtures.seed3]
              Hfails eq_refl Hne)).
Defined.

(** ** Tunnel discovery *)

Section TunnelFacts.
Import Utils Kad Overlay.
Context `{IpLib} `{Config}.
Context (find_tunnel : Contact → Js.result (option (list Contact)))
        (open_tunnel : Contact → Js.result (option string * option Alias))
        (fresh_id : string).

Abbreviation declines := (Overlay.declines find_tunnel fresh_id).
Abbreviation opens := (Overlay.opens open_tunnel fresh_id).

Lemma request_refused {R : Type} (reply : Contact → Js.result R)
    (contact : Contact) (i me : string) (p : Envelope) :
  isValidContact contact (Js.truthy_env STORJ_ALLOW_LOOPBACK) = false →
  request reply contact (Request i me p)
  = Js.Throw "Invalid or forbidden contact address".
Proof.
  intros Hbad. unfold request, Transport.send. simpl.
  by rewrite negb_involutive, Hbad.
Qed.

Lemma request_sent {R : Type} (reply : Contact → Js.result R)
    (contact : Contact) (i me : string) (p : Envelope) :
  isValidContact contact (Js.truthy_env STORJ_ALLOW_LOOPBACK) = true →
  request reply contact (Request i me p) = reply contact.
Proof.
  intros Hok. unfold request, Transport.send. simpl.
  by rewrite negb_involutive, Hok.
Qed.

Lemma ask_neighbors_declined (message : Message)
    (pre rest acc : list Contact) :
  message = Request fresh_id "FIND_TUNNEL" empty_object →
  Forall (λ n, declines n = true) pre →
  ask_neighbors find_tunnel message (pre ++ rest) acc
  = ask_neighbors find_tunnel message rest acc.
Proof.
  intros -> Hpre. induction Hpre as [|x pre Hx _ IH]; simpl; [done|].
  unfold Overlay.declines in Hx.
  destruct (request find_tunnel x _) as [[[|t ts]|]|e]; done.
Qed.

(** X5.  [_findTunnel] asks the neighbors in order and goes on to
    [_establishTunnel] with the tunnelers of the first neighbor that
    names any, and with nothing else; a neighbor whose contact the
    transport refuses is never asked and counts as naming none.  It
    fails when there is no neighbor or every neighbor names none.  When
    the first neighbor that does not name none replies without a
    [tunnels] list, the response handler throws a TypeError and the
    callback is never called.  In every case the node's own tunnel
    allowance is set to 0. *)
Theorem findTunnel_first_offer (neighbors : list Contact) :
  fst (_findTunnel find_tunnel fresh_id neighbors) = 0%Z
  ∧ (neighbors = [] →
     snd (_findTunnel find_tunnel fresh_id neighbors)
     = TunnelError "Could not find a neighbor to query for tunnels")
  ∧ (neighbors ≠ [] → Forall (λ n, declines n = true) neighbors →
     snd (_findTunnel find_tunnel fresh_id neighbors)
     = TunnelError "Failed to find tunnels from neighbors")
  ∧ (∀ pre n post ts,
       neighbors = pre ++ n :: post →
       Forall (λ n, declines n = true) pre →
       isValidContact n (Js.truthy_env STORJ_ALLOW_LOOPBACK) = true →
       find_tunnel n = Js.Ok (Some ts) → ts ≠ [] →
       snd (_findTunnel find_tunnel fresh_id neighbors) = Establish ts)
  ∧ (∀ pre n post,
       neighbors = pre ++ n :: post →
       Forall (λ n, declines n = true) pre →
       isValidContact n (Js.truthy_env STORJ_ALLOW_LOOPBACK) = true →
       find_tunnel n = Js.Ok None →
       snd (_findTunnel find_tunnel fresh_id neighbors) = TunnelTypeError)
  ∧ (∀ n, isValidContact n (Js.truthy_env STORJ_ALLOW_LOOPBACK) = false →
          declines n = true).
Proof.
  unfold _findTunnel.
  split; [|split; [|split; [|split; [|split]]]].
  - destruct neighbors as [|n ns]; [done|].
    by destruct (ask_neighbors _ _ _ _) as [[|t ts]|].
  - by intros ->.
  - intros Hne Hall. destruct neighbors as [|n ns] eqn:Hn; [done|].
    rewrite <- (app_nil_r (n :: ns)).
    by rewrite (ask_neighbors_declined _ _ [] [] eq_refl Hall).
  - intros pre n post ts -> Hpre Hvalid Hreply Hts.
    destruct (pre ++ n :: post) as [|x xs] eqn:Hl; [by destruct pre|].
    rewrite <- Hl, (ask_neighbors_declined _ _ _ [] eq_refl Hpre).
    simpl. rewrite (request_sent _ _ _ _ _ Hvalid), Hreply.
    by destruct ts.
  - intros pre n post -> Hpre Hvalid Hreply.
    destruct (pre ++ n :: post) as [|x xs] eqn:Hl; [by destruct pre|].
    rewrite <- Hl, (ask_neighbors_declined _ _ _ [] eq_refl Hpre).
    simpl. by rewrite (request_sent _ _ _ _ _ Hvalid), Hreply.
  - intros n Hbad. unfold Overlay.declines. by rewrite request_refused.
Qed.

Lemma until_established_none (tunnels : list Contact)
    (tunnel : option string) (alias : option Alias) :
  established tunnel alias = None →
  Forall (λ t, opens t = false) tunnels →
  until_established open_tunnel fresh_id tunnels tunnel alias
  = Js.Throw "No tunnelers were returned".
Proof.
  intros Hest Hall. revert tunnel alias Hest.
  induction Hall as [|x xs Hx _ IH]; intros tunnel alias Hest; simpl.
  - by rewrite Hest.
  - rewrite Hest. unfold Overlay.opens in Hx.
    destruct (request open_tunnel x _) as [[t a]|e]; [|by apply IH].
    apply IH. apply bool_decide_eq_false in Hx.
    destruct (established t a); [|done]. by destruct Hx.
Qed.

Lemma until_established_found (pre post : list Contact) (tun : Contact)
    (tunnel : option string) (alias : option Alias) (t : string) (a : Alias) :
  established tunnel alias = None →
  Forall (λ t, opens t = false) pre →
  request open_tunnel tun (Request fresh_id "OPEN_TUNNEL" empty_object)
  = Js.Ok (Some t, Some a) →
  t ≠ "" →
  until_established open_tunnel fresh_id (pre ++ tun :: post) tunnel alias
  = Js.Ok (post, t, a).
Proof.
  intros Hest Hpre Htun Ht. revert tunnel alias Hest.
  induction Hpre as [|x xs Hx _ IH]; intros tunnel alias Hest; simpl.
  - rewrite Hest, Htun. destruct post; simpl;
      by destruct (String.eqb_spec t "").
  - rewrite Hest. unfold Overlay.opens in Hx.
    destruct (request open_tunnel x _) as [[t' a']|e]; [|by apply IH].
    apply IH. apply bool_decide_eq_false in Hx.
    destruct (established t' a'); [|done]. by destruct Hx.
Qed.

(** X6.  [_establishTunnel] shifts tunnelers off the list one by one and
    settles on the first whose OPEN_TUNNEL reply carries both a tunnel
    and an alias; the tunnelers before it are used up, those after it
    are what a later retry continues with.  A tunneler the transport
    refuses to send to counts as failed.  When no tunneler is left it
    fails with 'Failed to establish tunnel, reason: No tunnelers were
    returned', and with a tunnel in hand but no listening server it
    refuses to start the tunnel client. *)
Theorem establishTunnel_first_open (localAddress : option Z)
    (tunnels : list Contact) :
  (Forall (λ t, opens t = false) tunnels →
   _establishTunnel open_tunnel fresh_id localAddress tunnels
   = EstablishError
       "Failed to establish tunnel, reason: No tunnelers were returned")
  ∧ (∀ pre tun post t a,
       tunnels = pre ++ tun :: post →
       Forall (λ t, opens t = false) pre →
       isValidContact tun (Js.truthy_env STORJ_ALLOW_LOOPBACK) = true →
       open_tunnel tun = Js.Ok (Some t, Some a) → t ≠ "" →
       _establishTunnel open_tunnel fresh_id localAddress tunnels
       = match localAddress with
         | Some port => OpenTunnelClient t port a post
         | None =>
             EstablishError
               "Local transport not initialized, refusing to establish new tunnel"
         end)
  ∧ (∀ tun, isValidContact tun (Js.truthy_env STORJ_ALLOW_LOOPBACK) = false →
            opens tun = false).
Proof.
  unfold _establishTunnel. repeat split.
  - intros Hall. by rewrite (until_established_none _ None None eq_refl Hall).
  - intros pre tun post t a -> Hpre Hvalid Hreply Ht.
    rewrite (until_established_found pre post tun None None t a eq_refl
               Hpre); [done| |done].
    by rewrite request_sent.
  - intros tun Hbad. unfold Overlay.opens. by rewrite request_refused.
Qed.

End TunnelFacts.

Section TunnelWitnesses.
#[local] Existing Instance Sample.ip.
#[local] Existing Instance Sample.config.
Import Utils Kad Overlay.

(** A loopback neighbor (never asked), a neighbor that knows nobody, and
    the farmer, who names two tunnelers; and the same neighbors when the
    farmer's reply carries no list. *)
Lemma findTunnel_first_offer_witness :
  _findTunnel Fixtures.find_tunnel "f00d"
    [Sample.local_farmer; Sample.old_farmer; Sample.farmer]
  = (0%Z, Establish [Sample.local_farmer; Sample.old_farmer])
  ∧ _findTunnel Fixtures.find_tunnel_bare "f00d"
      [Sample.local_farmer; Sample.old_farmer; Sample.farmer]
    = (0%Z, TunnelTypeError).
Proof.
  destruct (findTunnel_first_offer Fixtures.find_tunnel "f00d"
              [Sample.local_farmer; Sample.old_farmer; Sample.farmer])
    as (Hzero & _ & _ & Hoffer & _ & Hrefused).
  destruct (findTunnel_first_offer Fixtures.find_tunnel_bare "f00d"
              [Sample.local_farmer; Sample.old_farmer; Sample.farmer])
    as (Hzero' & _ & _ & _ & Hbare & Hrefused').
  assert (Hpre : Forall (λ n, declines Fixtures.find_tunnel "f00d" n = true)
                   [Sample.local_farmer; Sample.old_farmer]).
  { constructor; [apply Hrefused; reflexivity|].
    constructor; [reflexivity | constructor]. }
  assert (Hpre' : Forall
                    (λ n, declines Fixtures.find_tunnel_bare "f00d" n = true)
                    [Sample.local_farmer; Sample.old_farmer]).
  { constructor; [apply Hrefused'; reflexivity|].
    constructor; [reflexivity | constructor]. }
  assert (Hts : [Sample.local_farmer; Sample.old_farmer] ≠ [])
    by discriminate.
  pose proof (Hoffer [Sample.local_farmer; Sample.old_farmer] Sample.farmer
                [] [Sample.local_farmer; Sample.old_farmer]
                eq_refl Hpre eq_refl eq_refl Hts) as Hsnd.
  pose proof (Hbare [Sample.local_farmer; Sample.old_farmer] Sample.farmer
                [] eq_refl Hpre' eq_refl eq_refl) as Hsnd'.
  split.
  - destruct (_findTunnel Fixtures.find_tunnel _ _) as [z step].
    simpl in *. congruence.
  - destruct (_findTunnel Fixtures.find_tunnel_bare _ _) as [z step].
    simpl in *. congruence.
Defined.

(** Of the two tunnelers just named, the loopback one is refused by the
    transport and the second opens a tunnel; the farmer behind them
    stays on the list. *)
Lemma establishTunnel_first_open_witness :
  _establishTunnel Fixtures.open_tunnel "f00d" (Some 4000%Z)
    [Sample.local_farmer; Sample.old_farmer; Sample.farmer]
  = OpenTunnelClient "ws://104.200.143.243:4002" 4000 Fixtures.gateway
      [Sample.farmer].
Proof.
  destruct (establishTunnel_first_open Fixtures.open_tunnel "f00d"
              (Some 4000%Z)
              [Sample.local_farmer; Sample.old_farmer; Sample.farmer])
    as (_ & Hopen & Hrefused).
  assert (Hpre : Forall (λ t, opens Fixtures.open_tunnel "f00d" t = false)
                   [Sample.local_farmer]).
  { constructor; [apply Hrefused; reflexivity | constructor]. }
  assert (Hne : "ws://104.200.143.243:4002" ≠ "") by discriminate.
  exact (Hopen [Sample.local_farmer] Sample.old_farmer [Sample.farmer]
           "ws://104.200.143.243:4002" Fixtures.gateway
           eq_refl Hpre eq_refl eq_refl Hne).
Defined.

End TunnelWitnesses.

(** ** Retries of the upload path *)

Section UploadFacts.
Import Utils BridgeUpload.
Context {R : Type} (put_frame : nat → Js.result R).

Lemma may_retry_allowed (retry : option Z) (retries : nat) :
  may_retry retry retries = true ↔ (retries < allowed retry)%nat.
Proof.
  unfold may_retry, allowed. destruct retry as [r|]; [|split; [done | lia]].
  destruct (Z.gtb_spec r (Z.of_nat retries)); split; try done; lia.
Qed.

Lemma addShard_run (fuel : nat) (retry : option Z) (retries : nat) :
  (retries ≤ allowed retry)%nat →
  (allowed retry - retries < fuel)%nat →
  ∃ k res,
    _addShard put_frame fuel retry retries = Some (S k, res)
    ∧ (retries ≤ k ≤ allowed retry)%nat
    ∧ put_frame k = res
    ∧ (∀ j, (retries ≤ j < k)%nat → ∃ e, put_frame j = Js.Throw e)
    ∧ ((∃ e, res = Js.Throw e) → k = allowed retry).
Proof.
  revert retries. induction fuel as [|fuel IH]; intros retries Hle Hfuel;
    [lia|].
  simpl. destruct (put_frame retries) as [result|err] eqn:Hreq.
  - exists retries, (Js.Ok result).
    split; [done|]. split; [lia|]. split; [done|].
    split; [intros j Hj; lia | by intros [e He]].
  - destruct (may_retry retry retries) eqn:Hmay.
    + apply may_retry_allowed in Hmay.
      destruct (IH (S retries)) as (k & res & Hrun & Hk & Hres & Hpre & Herr);
        [lia | lia |].
      exists k, res.
      split; [done|]. split; [lia|]. split; [done|]. split; [|done].
      intros j Hj. destruct (decide (j = retries)) as [->|Hne]; [by eexists|].
      apply Hpre. lia.
    + assert (¬ (retries < allowed retry)%nat) as Hno.
      { intros Hlt. apply may_retry_allowed in Hlt. congruence. }
      exists retries, (Js.Throw err).
      split; [done|]. split; [lia|]. split; [done|].
      split; [intros j Hj; lia | intros _; lia].
Qed.

(** X7.  [addShardToFileStagingFrame] sends the request again after
    every failure until it has retried [opt.retry] times (6 when the
    options are left out, never when [retry] is missing or not
    positive): at most [retry + 1] requests go out, the callback gets
    the outcome of the last one, every request before it failed, and an
    error is only reported once the retries are used up. *)
Theorem addShard_retries_bounded (fuel : nat) (opt : option (option Z)) :
  (allowed (retry_of opt) < fuel)%nat →
  ∃ sent res,
    addShardToFileStagingFrame put_frame fuel opt = Some (sent, res)
    ∧ (1 ≤ sent ≤ allowed (retry_of opt) + 1)%nat
    ∧ put_frame (sent - 1) = res
    ∧ (∀ j, (j < sent - 1)%nat → ∃ e, put_frame j = Js.Throw e)
    ∧ ((∃ e, res = Js.Throw e) → sent = (allowed (retry_of opt) + 1)%nat).
Proof.
  intros Hfuel. unfold addShardToFileStagingFrame.
  destruct (addShard_run fuel (retry_of opt) 0)
    as (k & res & Hrun & Hk & Hres & Hpre & Herr); [lia | lia |].
  exists (S k), res. replace (S k - 1)%nat with k by lia.
  split; [done|]. split; [lia|]. split; [done|]. split.
  - intros j Hj. apply Hpre. lia.
  - intros He. rewrite (Herr He). lia.
Qed.

(** X8.  The retry handler of [_startTransfer]: counting from a fresh
    pointer, the same farmer is tried again [transferRetries] times;
    the failure after that puts the farmer's node id at the end of
    [excludeFarmers], resets the counter and asks for a new contract. *)
Theorem transfer_retries_then_excludes (limit : Z) (farmer : Contact)
    (meta : Meta) :
  (0 ≤ limit)%Z →
  transferRetries meta = 0%Z →
  on_retries limit farmer meta (S (Z.to_nat limit))
  = ({| transferRetries := 0;
        excludeFarmers := excludeFarmers meta ++ [nodeID farmer] |},
     replicate (Z.to_nat limit) Retransfer ++ [NewContract])
  ∧ ∀ k, (k ≤ Z.to_nat limit)%nat →
         on_retries limit farmer meta k
         = ({| transferRetries := Z.of_nat k;
               excludeFarmers := excludeFarmers meta |},
            replicate k Retransfer).
Proof.
  intros Hlimit Hzero.
  assert (Hstep : ∀ n m,
    (transferRetries m < limit)%Z →
    on_retries limit farmer m (S n)
    = let '(m', actions) :=
        on_retries limit farmer
          {| transferRetries := transferRetries m + 1;
             excludeFarmers := excludeFarmers m |} n in
      (m', Retransfer :: actions)).
  { intros n m Hlt. cbn [on_retries]. unfold on_retry.
    by destruct (Z.ltb_spec (transferRetries m) limit); [|lia]. }
  assert (Hgen : ∀ n m,
    (0 ≤ transferRetries m)%Z →
    (transferRetries m + Z.of_nat n ≤ limit)%Z →
    on_retries limit farmer m n
    = ({| transferRetries := transferRetries m + Z.of_nat n;
          excludeFarmers := excludeFarmers m |}, replicate n Retransfer)).
  { induction n as [|n IH]; intros m Hm Hn.
    - destruct m. simpl. by rewrite Z.add_0_r.
    - rewrite Hstep by lia. rewrite IH; simpl; [|lia|lia].
      do 2 f_equal. lia. }
  assert (Hlast : ∀ n m,
    (0 ≤ transferRetries m)%Z →
    (transferRetries m + Z.of_nat n = limit)%Z →
    on_retries limit farmer m (S n)
    = ({| transferRetries := 0;
          excludeFarmers := excludeFarmers m ++ [nodeID farmer] |},
       replicate n Retransfer ++ [NewContract])).
  { induction n as [|n IH]; intros m Hm Hn.
    - simpl. unfold on_retry.
      by destruct (Z.ltb_spec (transferRetries m) limit); [lia|].
    - rewrite Hstep by lia. rewrite IH; simpl; [done | lia | lia]. }
  split.
  - apply Hlast; lia.
  - intros k Hk. rewrite Hgen; [|lia|lia]. by rewrite Hzero.
Qed.

End UploadFacts.

(** The bridge of [Fixtures.put_frame] fails twice: with the default
    six retries three requests go out and the third one's answer comes
    back; without any retry the first error comes back. *)
Lemma addShard_retries_bounded_witness :
  BridgeUpload.addShardToFileStagingFrame Fixtures.put_frame 7 None
  = Some (3%nat, Js.Ok "pointer")
  ∧ ∃ sent res,
      BridgeUpload.addShardToFileStagingFrame Fixtures.put_frame 7
        (Some (Some 0%Z)) = Some (sent, res)
      ∧ sent = 1%nat ∧ res = Js.Throw "ECONNRESET".
Proof.
  split; [reflexivity|].
  destruct (addShard_retries_bounded Fixtures.put_frame 7 (Some (Some 0%Z)))
    as (sent & res & Hrun & Hsent & Hres & _ & _); [simpl; lia|].
  exists sent, res. simpl in Hsent.
  assert (sent = 1%nat) as -> by lia.
  repeat split; [exact Hrun | by rewrite <- Hres].
Defined.

(** With the default limit of three the farmer gets four attempts. *)
Lemma transfer_retries_then_excludes_witness :
  BridgeUpload.on_retries 3 Sample.farmer
    {| BridgeUpload.transferRetries := 0;
       BridgeUpload.excludeFarmers := [] |} 4
  = ({| BridgeUpload.transferRetries := 0;
        BridgeUpload.excludeFarmers := [Utils.nodeID Sample.farmer] |},
     [BridgeUpload.Retransfer; BridgeUpload.Retransfer;
      BridgeUpload.Retransfer; BridgeUpload.NewContract]).
Proof.
  assert (Hlimit : (0 ≤ 3)%Z) by lia.
  exact (proj1 (transfer_retries_then_excludes 3 Sample.farmer
                  {| BridgeUpload.transferRetries := 0;
                     BridgeUpload.excludeFarmers := [] |} Hlimit eq_refl)).
Defined.

(** ** The download queue and the muxer *)

Section DownloadFacts.
Import FileMuxer BridgeClient Download.

Lemma work_app (m : t) (xs ys : list (option Pointer)) :
  work m (xs ++ ys)
  = match work m xs with
    | Js.Ok m' => work m' ys
    | Js.Throw e => Js.Throw e
    end.
Proof.
  revert m. induction xs as [|x xs IH]; intros m; simpl; [done|].
  destruct (_addInputToMultiplexer m x); [apply IH | done].
Qed.

Lemma total_size_from (ps : list Pointer) (acc : Z) :
  foldl (λ a b, (a + size b)%Z) acc ps = (acc + total_size ps)%Z.
Proof.
  unfold total_size. revert acc.
  induction ps as [|p ps IH]; intros acc; simpl; [lia|].
  rewrite (IH (acc + size p)%Z), (IH (0 + size p)%Z). lia.
Qed.

Lemma total_size_cons (p : Pointer) (ps : list Pointer) :
  total_size (p :: ps) = (size p + total_size ps)%Z.
Proof. unfold total_size at 1. simpl. rewrite total_size_from. lia. Qed.

Lemma total_size_app (ps qs : list Pointer) :
  total_size (ps ++ qs) = (total_size ps + total_size qs)%Z.
Proof.
  induction ps as [|p ps IH]; simpl; [done|].
  rewrite !total_size_cons, IH. lia.
Qed.

(** One pointer whose channel opens, handled by the worker. *)
Lemma addInput_opens (m : t) (p : Pointer) :
  (_added m ≤ _shards m)%Z →
  channel_opens p →
  ∃ m',
    _addInputToMultiplexer m (Some p) = Js.Ok m'
    ∧ _added m' = (_added m + 1)%Z
    ∧ _shards m' = Z.max (_shards m) (_added m + 1)
    ∧ _length m'
      = (if (_added m =? _shards m)%Z then _length m + size p
         else _length m)%Z
    ∧ _bytesRead m' = _bytesRead m
    ∧ _inputs m' = _inputs m ++ [stream_of p].
Proof.
  intros Hle [inputStream Hch]. unfold _addInputToMultiplexer, stream_of.
  rewrite Hch. unfold input.
  destruct (Z.eqb_spec (_added m) (_shards m)) as [Heq|Hne]; simpl.
  - destruct (Z.ltb_spec (_added m) (_shards m + 1)); [|lia].
    eexists. split; [done|]. simpl. repeat split; lia.
  - destruct (Z.ltb_spec (_added m) (_shards m)); [|lia].
    eexists. split; [done|]. simpl. repeat split; lia.
Qed.

(** X9.  The queue worker of [resolveFileFromPointers] never runs into
    'Inputs exceed defined number of shards': as long as every data
    channel opens, every pointer handed to it is registered, in order.
    Afterwards the muxer counts one more input per pointer and its shard
    count is the declared one or the number of inputs, whichever is
    larger.  The first channel that fails ends the run with its own
    error. *)
Theorem work_registers_every_pointer (m0 : t)
    (tasks : list (option Pointer)) :
  (_added m0 ≤ _shards m0)%Z →
  (Forall channel_opens (pointers_of tasks) →
   ∃ m,
     work m0 tasks = Js.Ok m
     ∧ _added m
       = (_added m0 + Z.of_nat (List.length (pointers_of tasks)))%Z
     ∧ _shards m
       = Z.max (_shards m0)
           (_added m0 + Z.of_nat (List.length (pointers_of tasks)))
     ∧ _inputs m = _inputs m0 ++ map stream_of (pointers_of tasks)
     ∧ _bytesRead m = _bytesRead m0)
  ∧ (∀ pre p post e,
       tasks = pre ++ Some p :: post →
       Forall channel_opens (pointers_of pre) →
       channel p = Js.Throw e →
       work m0 tasks = Js.Throw e).
Proof.
  intros Hle.
  assert (Hall : ∀ tasks m0,
    (_added m0 ≤ _shards m0)%Z →
    Forall channel_opens (pointers_of tasks) →
    ∃ m,
      work m0 tasks = Js.Ok m
      ∧ _added m
        = (_added m0 + Z.of_nat (List.length (pointers_of tasks)))%Z
      ∧ _shards m
        = Z.max (_shards m0)
            (_added m0 + Z.of_nat (List.length (pointers_of tasks)))
      ∧ _inputs m = _inputs m0 ++ map stream_of (pointers_of tasks)
      ∧ _bytesRead m = _bytesRead m0).
  { clear. induction tasks as [|[p|] tasks IH]; intros m0 Hle Hok.
    - exists m0. simpl. rewrite app_nil_r. repeat split; lia.
    - change (pointers_of (Some p :: tasks)) with (p :: pointers_of tasks)
        in *.
      apply Forall_cons in Hok as [Hp Hok].
      destruct (addInput_opens m0 p Hle Hp)
        as (m1 & Hadd & Ha & Hs & _ & Hb & Hi).
      destruct (IH m1) as (m & Hwork & Ha' & Hs' & Hi' & Hb');
        [lia | done |].
      exists m. cbn [work]. rewrite Hadd.
      split; [done|]. rewrite Ha', Hs', Hi', Hb', Ha, Hs, Hi, Hb.
      rewrite <- app_assoc. simpl. repeat split; lia.
    - change (pointers_of (None :: tasks)) with (pointers_of tasks) in *.
      destruct (IH m0 Hle Hok) as (m & Hwork & Hrest). by exists m. }
  split; [by apply Hall|].
  intros pre p post e -> Hpre Hch. rewrite work_app.
  destruct (Hall pre m0 Hle Hpre) as (m & -> & _).
  simpl. unfold _addInputToMultiplexer. by rewrite Hch.
Qed.

Lemma total_size_nil : total_size [] = 0%Z.
Proof. done. Qed.

(** The worker on any queue order, from any muxer that has room or is
    exactly full. *)
Lemma work_any_order (tasks : list (option Pointer)) (m0 : t) :
  (_added m0 ≤ _shards m0)%Z →
  Forall channel_opens (pointers_of tasks) →
  ∃ m,
    work m0 tasks = Js.Ok m
    ∧ _added m
      = (_added m0 + Z.of_nat (List.length (pointers_of tasks)))%Z
    ∧ _shards m
      = Z.max (_shards m0)
          (_added m0 + Z.of_nat (List.length (pointers_of tasks)))
    ∧ _length m
      = (_length m0
         + total_size (drop (Z.to_nat (_shards m0 - _added m0))
                         (pointers_of tasks)))%Z
    ∧ _inputs m = _inputs m0 ++ map stream_of (pointers_of tasks).
Proof.
  revert m0. induction tasks as [|[p|] tasks IH]; intros m0 Hle Hok.
  - exists m0. simpl. rewrite app_nil_r, drop_nil, total_size_nil.
    repeat split; lia.
  - change (pointers_of (Some p :: tasks)) with (p :: pointers_of tasks)
      in *.
    apply Forall_cons in Hok as [Hp Hok].
    destruct (addInput_opens m0 p Hle Hp)
      as (m1 & Hadd & Ha & Hs & Hl & _ & Hi).
    destruct (IH m1) as (m & Hwork & Ha' & Hs' & Hl' & Hi'); [lia | done |].
    exists m. cbn [work]. rewrite Hadd. split; [done|].
    rewrite Ha', Hs', Hl', Hi', Ha, Hs, Hl, Hi, <- app_assoc.
    split; [simpl; lia|]. split; [simpl; lia|]. split; [|done].
    destruct (Z.eqb_spec (_added m0) (_shards m0)) as [Heq|Hne].
    + rewrite Heq, Z.sub_diag.
      replace (Z.max (_shards m0) (_shards m0 + 1) - (_shards m0 + 1))%Z
        with 0%Z by lia.
      change (Z.to_nat 0) with O. rewrite !drop_0, total_size_cons. lia.
    + replace (Z.to_nat (_shards m0 - _added m0))
        with (S (Z.to_nat (Z.max (_shards m0) (_added m0 + 1)
                           - (_added m0 + 1)))) by lia.
      done.
  - change (pointers_of (None :: tasks)) with (pointers_of tasks) in *.
    destruct (IH m0 Hle Hok) as (m & Hwork & Hrest). by exists m.
Qed.

(** X10.  The muxer of a download.  It is built for the first slice of
    pointers, which must not be empty and must not be empty of bytes:
    the constructor throws otherwise.  The worker then handles the
    queue in whatever order the pointers were pushed ([undefined] tasks
    between them).  If each data channel opens, the inputs are
    registered in queue order, the shard count ends as the number of
    pointers handled (at least that of the first slice), and the
    declared length is the first slice's bytes plus the [size] of every
    pointer handled after as many pointers as the first slice has.  So
    when the queue order is the first slice followed by the later
    pointers, the muxer ends up declared for all the pointers and all
    their bytes. *)
Theorem download_reassembles (first : list Pointer)
    (tasks : list (option Pointer)) :
  (first = [] →
   new_muxer first = Js.Throw "Cannot multiplex a 0 shard stream")
  ∧ (first ≠ [] → (total_size first ≤ 0)%Z →
     new_muxer first = Js.Throw "Cannot multiplex a 0 length stream")
  ∧ (first ≠ [] → (0 < total_size first)%Z →
     Forall channel_opens (pointers_of tasks) →
     ∃ m0 m,
       new_muxer first = Js.Ok m0
       ∧ work m0 tasks = Js.Ok m
       ∧ _inputs m = map stream_of (pointers_of tasks)
       ∧ _shards m
         = Z.max (Z.of_nat (List.length first))
             (Z.of_nat (List.length (pointers_of tasks)))
       ∧ _length m
         = (total_size first
            + total_size (drop (List.length first) (pointers_of tasks)))%Z
       ∧ (∀ more,
            pointers_of tasks = first ++ more →
            _shards m = Z.of_nat (List.length (first ++ more))
            ∧ _length m = total_size (first ++ more))).
Proof.
  split; [|split].
  - by intros ->.
  - intros Hne Hzero. unfold new_muxer, create, _checkOptions. simpl.
    destruct (Z.leb_spec (Z.of_nat (List.length first)) 0);
      [by destruct first|].
    by destruct (Z.leb_spec (total_size first) 0); [|lia].
  - intros Hne Hpos Hopens.
    assert (Hnew : new_muxer first
                   = Js.Ok {| _shards := Z.of_nat (List.length first);
                              _length := total_size first; _added := 0;
                              _bytesRead := 0; _inputs := [] |}).
    { unfold new_muxer, create, _checkOptions. simpl.
      destruct (Z.leb_spec (Z.of_nat (List.length first)) 0);
        [by destruct first|].
      by destruct (Z.leb_spec (total_size first) 0); [lia|]. }
    eexists. rewrite Hnew.
    destruct (work_any_order tasks
                {| _shards := Z.of_nat (List.length first);
                   _length := total_size first; _added := 0;
                   _bytesRead := 0; _inputs := [] |})
      as (m & Hw & Ha & Hs & Hl & Hi); [simpl; lia | done |].
    simpl in Ha, Hs, Hl, Hi.
    rewrite Z.sub_0_r, Nat2Z.id in Hl.
    exists m. split; [done|]. split; [done|]. split; [done|].
    split; [done|]. split; [done|].
    intros more Hall. rewrite Hs, Hl, Hall, drop_app_length.
    rewrite total_size_app, length_app. split; lia.
Qed.

End DownloadFacts.

Section DownloadWitnesses.
Import FileMuxer BridgeClient Download.

(** A muxer declared for one shard, and a queue holding two pointers
    around an [undefined] task. *)
Lemma work_registers_every_pointer_witness :
  ∃ m,
    work {| _shards := 1; _length := 5; _added := 0; _bytesRead := 0;
            _inputs := [] |}
      [Some (Sample.pointer "hello"); None; Some (Sample.pointer "storj")]
    = Js.Ok m
    ∧ _added m = 2%Z ∧ _shards m = 2%Z
    ∧ _inputs m = [["hello"]; ["storj"]].
Proof.
  assert (Hle : (_added {| _shards := 1; _length := 5; _added := 0;
                           _bytesRead := 0; _inputs := [] |}
                 ≤ _shards {| _shards := 1; _length := 5; _added := 0;
                              _bytesRead := 0; _inputs := [] |})%Z)
    by (simpl; lia).
  assert (Hok : Forall channel_opens
                  (pointers_of [Some (Sample.pointer "hello"); None;
                                Some (Sample.pointer "storj")])).
  { repeat constructor; by eexists. }
  destruct (proj1 (work_registers_every_pointer _ _ Hle) Hok)
    as (m & Hwork & Ha & Hs & Hi & _).
  exists m. split; [exact Hwork|]. split; [exact Ha|].
  split; [exact Hs | exact Hi].
Defined.

(** A first slice of one pointer and one later pointer, with an
    [undefined] task between them. *)
Lemma download_reassembles_witness :
  ∃ m0 m,
    new_muxer [Sample.pointer "hello"] = Js.Ok m0
    ∧ work m0 [Some (Sample.pointer "hello"); None;
               Some (Sample.pointer " storj")]
      = Js.Ok m
    ∧ _inputs m = [["hello"]; [" storj"]]
    ∧ _shards m = 2%Z ∧ _length m = 11%Z.
Proof.
  assert (Hne : [Sample.pointer "hello"] ≠ []) by discriminate.
  assert (Hpos : (0 < total_size [Sample.pointer "hello"])%Z) by reflexivity.
  assert (Hall : Forall channel_opens
                   (pointers_of [Some (Sample.pointer "hello"); None;
                                 Some (Sample.pointer " storj")])).
  { repeat constructor; by eexists. }
  destruct (proj2 (proj2 (download_reassembles [Sample.pointer "hello"]
                            [Some (Sample.pointer "hello"); None;
                             Some (Sample.pointer " storj")]))
              Hne Hpos Hall)
    as (m0 & m & Hnew & Hwork & Hi & _ & _ & Hboth).
  destruct (Hboth [Sample.pointer " storj"] eq_refl) as [Hs Hl].
  exists m0, m. split; [exact Hnew|]. split; [exact Hwork|].
  split; [exact Hi|]. split; [exact Hs | exact Hl].
Defined.

End DownloadWitnesses.

(** ** The in-memory adapter's items, shards and streams *)

Section RAMFacts.
Import Storage RAMStreams.
Context {Item Shard : Type} `{Countable Item}.
Context (byteLength : Shard → nat)
        (jsonLength : gmap string Item → gmap Item (ShardStream) → nat).

Implicit Types (w : World Item Shard) (steps : list (Step Item Shard)).

Lemma get_own {V : Type} (o : JsObject.t V) (key : string) (v : V) :
  JsObject.own o !! key = Some v → JsObject.get o key = JsObject.Own v.
Proof. unfold JsObject.get. by intros ->. Qed.

Lemma get_not_own {V : Type} (o : JsObject.t V) (key : string) :
  JsObject.own o !! key = None → JsObject.replaced o = false →
  JsObject.get o key
  = if bool_decide (key ∈ JsObject.members) then JsObject.Inherited key
    else JsObject.Missing.
Proof. unfold JsObject.get. by intros -> ->. Qed.

Lemma set_plain {V : Type} (o : JsObject.t V) (key : string) (v : V) :
  key ≠ "__proto__" →
  JsObject.set o key v
  = {| JsObject.own := <[key := v]> (JsObject.own o);
       JsObject.replaced := JsObject.replaced o |}.
Proof.
  intros Hne. unfold JsObject.set.
  by destruct (String.eqb_spec key "__proto__").
Qed.

Lemma proto_is_member : "__proto__" ∈ JsObject.members.
Proof. unfold JsObject.members. rewrite !elem_of_cons. tauto. Qed.

Lemma put_good w (ws : list string) (k : string) (it : Item) :
  shards_have_items (w, ws) → k ≠ "__proto__" →
  shards_have_items (with_adapter w (_put (adapter w) k it), ws)
  ∧ ∀ key,
      JsObject.own (_items (_put (adapter w) k it)) !! key
      = if String.eqb k key then Some it
        else JsObject.own (_items (adapter w)) !! key.
Proof.
  intros (Hri & Hrs & Hsh & Hws) Hkey. simpl in *.
  unfold shards_have_items, _put. simpl. rewrite (set_plain _ _ _ Hkey).
  simpl. split.
  - split; [done|]. split; [done|]. split.
    + intros k' Hk'. rewrite lookup_insert_is_Some.
      destruct (decide (k = k')); auto.
    + intros k' Hk'. destruct (Hws k' Hk') as [Hi Hm]. split; [|done].
      rewrite lookup_insert_is_Some. destruct (decide (k = k')); auto.
  - intros key. destruct (String.eqb_spec k key) as [->|Hne].
    + apply lookup_insert_eq.
    + by apply lookup_insert_ne.
Qed.

Lemma del_good w (ws : list string) (k : string) :
  shards_have_items (w, ws) →
  shards_have_items (with_adapter w (_del (adapter w) k), ws).
Proof.
  intros (Hri & Hrs & Hsh & Hws). simpl in *.
  unfold shards_have_items, _del. simpl.
  split; [done|]. split; [done|]. split; [|done].
  intros k' Hk'. apply Hsh.
  destruct (decide (k = k')) as [->|Hne].
  - rewrite lookup_delete_eq in Hk'. by destruct Hk'.
  - by rewrite lookup_delete_ne in Hk'.
Qed.

Lemma write_good w (ws : list string) (k : string) (data : Shard) :
  shards_have_items (w, ws) → k ∈ ws →
  shards_have_items (write w k data, ws).
Proof.
  intros (Hri & Hrs & Hsh & Hws) Hin. simpl in *.
  destruct (Hws k Hin) as [Hi Hm].
  assert (Hkey : k ≠ "__proto__").
  { intros ->. apply Hm, proto_is_member. }
  unfold shards_have_items, write. simpl. rewrite (set_plain _ _ _ Hkey).
  simpl. split; [done|]. split; [done|]. split; [|done].
  intros k' Hk'. destruct (decide (k = k')) as [<-|Hne]; [done|].
  rewrite lookup_insert_ne in Hk' by done. auto.
Qed.

(** [_get] under the invariant, case by case. *)
Lemma get_cases w (ws : list string) (k : string) :
  shards_have_items (w, ws) → k ≠ "__proto__" →
  ∃ w' res,
    _get w k = Some (w', res) ∧ adapter w' = adapter w
    ∧ res
      = match JsObject.own (_items (adapter w)) !! k,
              JsObject.own (_shards (adapter w)) !! k with
        | Some it, Some _ => Js.Ok (Stored it, Readable k false)
        | Some it, None =>
            if bool_decide (k ∈ JsObject.members)
            then Js.Ok (Stored it, Readable k false)
            else Js.Ok (Stored it, Writable k)
        | None, _ =>
            if bool_decide (k ∈ JsObject.members)
            then Js.Ok (Builtin k, Readable k false)
            else Js.Throw "Shard data not found"
        end.
Proof.
  intros (Hri & Hrs & Hsh & Hws) Hkey. simpl in *.
  unfold _get, stream_for.
  destruct (String.eqb_spec k "__proto__"); [done|].
  destruct (JsObject.own (_items (adapter w)) !! k) as [it|] eqn:Hit.
  - rewrite (get_own _ _ _ Hit).
    destruct (JsObject.own (_shards (adapter w)) !! k) as [d|] eqn:Hd.
    + rewrite (get_own _ _ _ Hd). by eexists _, _.
    + rewrite (get_not_own _ _ Hd Hrs).
      destruct (bool_decide (k ∈ JsObject.members)); by eexists _, _.
  - assert (Hd : JsObject.own (_shards (adapter w)) !! k = None).
    { destruct (JsObject.own (_shards (adapter w)) !! k) eqn:Hd; [|done].
      destruct (Hsh k) as [x Hx]; [by eexists | congruence]. }
    rewrite (get_not_own _ _ Hit Hri).
    destruct (bool_decide (k ∈ JsObject.members)) eqn:Hm.
    + rewrite (get_not_own _ _ Hd Hrs), Hm. by eexists _, _.
    + by eexists _, _.
Qed.

Lemma step_good (st : World Item Shard * list string) (s : Step Item Shard) :
  shards_have_items st → step_key s ≠ "__proto__" →
  ∃ st',
    step st s = Some st' ∧ shards_have_items st'
    ∧ ∀ key, JsObject.own (_items (adapter (fst st'))) !! key
             = last_put key [s]
                 (JsObject.own (_items (adapter (fst st))) !! key).
Proof.
  destruct st as [w ws]. intros Hinv Hkey.
  destruct s as [k it|k|k|k data]; simpl in Hkey.
  - destruct (put_good w ws k it Hinv Hkey) as [Hinv' Hitems].
    eexists. split; [done|]. split; [done|]. exact Hitems.
  - eexists. split; [done|]. split; [by apply del_good | done].
  - destruct (get_cases w ws k Hinv Hkey) as (w' & res & Hget & Ha & Hres).
    simpl. rewrite Hget.
    destruct Hinv as (Hri & Hrs & Hsh & Hws). simpl in *.
    assert (Hkeep : shards_have_items (w', ws)).
    { unfold shards_have_items. simpl. by rewrite Ha. }
    destruct (JsObject.own (_items (adapter w)) !! k) as [it|] eqn:Hit.
    + destruct (JsObject.own (_shards (adapter w)) !! k) as [d|] eqn:Hd.
      * subst res. eexists. split; [done|]. simpl. by rewrite Ha.
      * destruct (bool_decide_reflect (k ∈ JsObject.members)) as [Hm|Hm];
          subst res.
        -- eexists. split; [done|]. simpl. by rewrite Ha.
        -- eexists. split; [done|]. simpl. rewrite Ha. split; [|done].
           unfold shards_have_items. simpl. rewrite Ha.
           split; [done|]. split; [done|]. split; [done|].
           intros k' Hk'. apply elem_of_cons in Hk' as [->|Hk'];
             [by rewrite Hit | by apply Hws].
    + destruct (bool_decide (k ∈ JsObject.members)); subst res;
        eexists; (split; [done|]); simpl; by rewrite Ha.
  - simpl. destruct (bool_decide_reflect (k ∈ ws)) as [Hin|Hnot].
    + eexists. split; [done|]. split; [by apply write_good | done].
    + eexists. split; [done|]. by split.
Qed.

Lemma fresh_good : shards_have_items (fresh (Item := Item) (Shard := Shard), []).
Proof.
  unfold shards_have_items. simpl. split; [done|]. split; [done|]. split.
  - intros k Hk. rewrite lookup_empty in Hk. by destruct Hk.
  - intros k Hk. by apply elem_of_nil in Hk.
Qed.

Lemma last_put_app (key : string) steps1 steps2 (found : option Item) :
  last_put key (steps1 ++ steps2) found
  = last_put key steps2 (last_put key steps1 found).
Proof.
  revert found. induction steps1 as [|s steps1 IH]; intros found; [done|].
  destruct s; simpl; apply IH.
Qed.

Lemma run_good steps (st : World Item Shard * list string) :
  shards_have_items st →
  Forall (λ s, step_key s ≠ "__proto__") steps →
  ∃ st',
    run_from st steps = Some st' ∧ shards_have_items st'
    ∧ ∀ key, JsObject.own (_items (adapter (fst st'))) !! key
             = last_put key steps
                 (JsObject.own (_items (adapter (fst st))) !! key).
Proof.
  intros Hinv Hkeys. revert st Hinv.
  induction Hkeys as [|s steps Hs _ IH]; intros st Hinv.
  - exists st. split; [done|]. by split.
  - destruct (step_good st s Hinv Hs) as (st1 & Hstep & Hinv1 & Hitems1).
    destruct (IH st1 Hinv1) as (st' & Hrun & Hinv' & Hitems).
    exists st'. simpl. rewrite Hstep. split; [done|]. split; [done|].
    intros key. rewrite Hitems, Hitems1.
    by rewrite <- (last_put_app key [s] steps).
Qed.

(** X11.  What [_peek] sees after any run of puts, deletes, gets and
    shard writes on a fresh adapter (no call naming [__proto__]): for a
    key that was put, the object of the last [_put] under it; deletes,
    gets and writes never change that, and an item cannot be removed.
    For a key never put it answers 'Shard data not found', except that
    the name of a member of [Object.prototype] yields that member. *)
Theorem peek_returns_last_put steps :
  Forall (λ s, step_key s ≠ "__proto__") steps →
  ∃ w writables,
    run steps = Some (w, writables)
    ∧ ∀ key,
        _peek (adapter w) key
        = Some (match last_put key steps None with
                | Some item => Js.Ok (Stored item)
                | None =>
                    if bool_decide (key ∈ JsObject.members)
                    then Js.Ok (Builtin key)
                    else Js.Throw "Shard data not found"
                end).
Proof.
  intros Hkeys.
  destruct (run_good steps (fresh, []) fresh_good Hkeys)
    as ([w ws] & Hrun & (Hri & _) & Hitems).
  exists w, ws. split; [exact Hrun|]. intros key. simpl in *.
  specialize (Hitems key). rewrite lookup_empty in Hitems.
  unfold _peek. destruct (last_put key steps None) as [item|].
  - by rewrite (get_own _ _ _ Hitems).
  - rewrite (get_not_own _ _ Hitems Hri).
    by destruct (bool_decide (key ∈ JsObject.members)).
Qed.

(** X12.  Shard bytes are only ever held for keys that have an item.
    After any run of puts, deletes, gets and writes through the
    writables handed out (no call naming [__proto__]), and for a key
    that is not the name of a member of [Object.prototype]: if a shard
    is held, [_get] answers with the item and a readable; if there is an
    item and no shard, with a writable; without an item it answers
    'Shard data not found', and no shard is held. *)
Theorem get_classifies_keys steps (key : string) :
  Forall (λ s, step_key s ≠ "__proto__") steps →
  key ∉ JsObject.members →
  ∃ w writables,
    run steps = Some (w, writables)
    ∧ (is_Some (JsObject.own (_shards (adapter w)) !! key) →
       ∃ item w',
         JsObject.own (_items (adapter w)) !! key = Some item
         ∧ _get w key = Some (w', Js.Ok (Stored item, Readable key false)))
    ∧ (∀ item,
         JsObject.own (_items (adapter w)) !! key = Some item →
         JsObject.own (_shards (adapter w)) !! key = None →
         ∃ w', _get w key = Some (w', Js.Ok (Stored item, Writable key)))
    ∧ (JsObject.own (_items (adapter w)) !! key = None →
       _get w key = Some (w, Js.Throw "Shard data not found")
       ∧ JsObject.own (_shards (adapter w)) !! key = None).
Proof.
  intros Hkeys Hmember.
  assert (Hkey : key ≠ "__proto__").
  { intros ->. apply Hmember, proto_is_member. }
  destruct (run_good steps (fresh, []) fresh_good Hkeys)
    as ([w ws] & Hrun & Hinv & _).
  exists w, ws. split; [exact Hrun|].
  destruct (get_cases w ws key Hinv Hkey) as (w' & res & Hget & Ha & Hres).
  destruct Hinv as (Hri & Hrs & Hsh & Hws). simpl in *.
  assert (Hbd : bool_decide (key ∈ JsObject.members) = false)
    by by apply bool_decide_eq_false_2.
  rewrite Hbd in Hres.
  split; [|split].
  - intros Hshard. destruct (Hsh key Hshard) as [item Hitem].
    destruct Hshard as [d Hd]. rewrite Hitem, Hd in Hres. subst res.
    by exists item, w'.
  - intros item Hitem Hd. rewrite Hitem, Hd in Hres. subst res.
    by exists w'.
  - intros Hnone. rewrite Hnone in Hres. subst res. split.
    + unfold _get in *. destruct (String.eqb key "__proto__"); [done|].
      by rewrite (get_not_own _ _ Hnone Hri), Hbd.
    + destruct (JsObject.own (_shards (adapter w)) !! key) eqn:Hd; [|done].
      destruct (Hsh key) as [x Hx]; [by eexists | congruence].
Qed.

Lemma writes_adapter w (key : string) (data : list Shard) :
  key ≠ "__proto__" →
  let w' := foldl (λ w d, write w key d) w data in
  _items (adapter w') = _items (adapter w)
  ∧ JsObject.replaced (_shards (adapter w'))
    = JsObject.replaced (_shards (adapter w))
  ∧ JsObject.own (_shards (adapter w')) !! key
    = from_option Some (JsObject.own (_shards (adapter w)) !! key)
        (last data).
Proof.
  intros Hkey. revert w. induction data as [|d data IH]; intros w; [done|].
  simpl. destruct (IH (write w key d)) as (Hi & Hr & Ho).
  rewrite Hi, Hr, Ho. unfold write. simpl. rewrite (set_plain _ _ _ Hkey).
  simpl. split; [done|]. split; [done|].
  destruct data as [|d' data]; [by simpl; rewrite lookup_insert_eq|].
  change (last (d :: d' :: data)) with (last (d' :: data)).
  destruct (last (d' :: data)) eqn:Hlast; [done|].
  by apply last_None in Hlast.
Qed.

Lemma get_writable w w1 (key : string) (r : Ref Item) :
  _get w key = Some (w1, Js.Ok (r, Writable key)) →
  key ≠ "__proto__"
  ∧ JsObject.replaced (_shards (adapter w)) = false
  ∧ ∃ item, r = Stored item
            ∧ JsObject.own (_items (adapter w)) !! key = Some item
            ∧ adapter w1 = adapter w.
Proof.
  unfold _get, stream_for, JsObject.get.
  destruct (String.eqb_spec key "__proto__") as [|Hkey]; [done|].
  destruct (JsObject.own (_shards (adapter w)) !! key).
  { destruct (JsObject.own (_items (adapter w)) !! key); [done|].
    destruct (JsObject.replaced (_items (adapter w))); [done|].
    by destruct (bool_decide (key ∈ JsObject.members)). }
  destruct (JsObject.replaced (_shards (adapter w))).
  { destruct (JsObject.own (_items (adapter w)) !! key); [done|].
    destruct (JsObject.replaced (_items (adapter w))); [done|].
    by destruct (bool_decide (key ∈ JsObject.members)). }
  destruct (bool_decide (key ∈ JsObject.members)).
  { destruct (JsObject.own (_items (adapter w)) !! key); [done|].
    by destruct (JsObject.replaced (_items (adapter w))). }
  destruct (JsObject.own (_items (adapter w)) !! key) as [item|].
  - intros Heq. injection Heq as <- <-.
    split; [done|]. split; [done|]. by exists item.
  - by destruct (JsObject.replaced (_items (adapter w))).
Qed.

(** X13.  Writing a shard and reading it back.  Through the writable
    [_get] hands out for a key without shard, every write replaces what
    the adapter holds for the key: after one or more writes [_get]
    answers with the same object and a readable, whose first read pushes
    the chunk written last, nothing of the earlier chunks, and whose
    second read ends the stream; [_peek] answers as before. *)
Theorem written_shard_is_last_chunk w w1 (key : string) (r : Ref Item)
    (chunks : list Shard) (last : Shard) :
  _get w key = Some (w1, Js.Ok (r, Writable key)) →
  let w' := foldl (λ w data, write w key data) w1 (chunks ++ [last]) in
  (∃ w2, _get w' key = Some (w2, Js.Ok (r, Readable key false)))
  ∧ read w' key false = Some (PushData last, true)
  ∧ read w' key true = Some (PushNull, true)
  ∧ (∀ k, _peek (adapter w') k = _peek (adapter w) k).
Proof.
  intros Hget w'.
  destruct (get_writable _ _ _ _ Hget)
    as (Hkey & Hrs & item & -> & Hitem & Ha).
  destruct (writes_adapter w1 key (chunks ++ [last]) Hkey)
    as (Hi & _ & Ho).
  fold w' in Hi, Ho. rewrite last_snoc in Ho. simpl in Ho.
  rewrite Ha in Hi.
  split; [|split; [|split]].
  - unfold _get, stream_for.
    destruct (String.eqb_spec key "__proto__"); [done|].
    rewrite Hi, (get_own _ _ _ Hitem), (get_own _ _ _ Ho). by eexists.
  - unfold read. by rewrite (get_own _ _ _ Ho).
  - done.
  - intros k. unfold _peek. by rewrite Hi.
Qed.

Lemma shardBytes_delete w (key : string) (shard : Shard) :
  JsObject.own (_shards (adapter w)) !! key = Some shard →
  shardBytes byteLength w
  = (shardBytes byteLength (with_adapter w (_del (adapter w) key))
     + byteLength shard)%nat.
Proof.
  intros Hshard. unfold shardBytes, _del. simpl.
  apply (map_fold_delete_L (λ _ sh acc, (acc + byteLength sh)%nat)
           O key shard (JsObject.own (_shards (adapter w)))); [|done].
  intros. lia.
Qed.

(** X14.  [_del] frees the shard and nothing else.  With the shards'
    prototype in place, the size reported by [_size] goes down by
    exactly the length of the shard held for the key; the item stays, so
    [_peek] answers as before and the key stays listed; deleting a key
    that holds no shard changes nothing; and for a key with an item that
    is not the name of a member of [Object.prototype], the next [_get]
    hands out a writable again. *)
Theorem del_frees_shard_only w (key : string) :
  let w' := with_adapter w (_del (adapter w) key) in
  (∀ shard,
     JsObject.own (_shards (adapter w)) !! key = Some shard →
     JsObject.replaced (_shards (adapter w)) = false →
     ∃ n, _size byteLength jsonLength w' = Some n
          ∧ _size byteLength jsonLength w
            = Some (n + byteLength shard)%nat)
  ∧ (JsObject.own (_shards (adapter w)) !! key = None →
     _del (adapter w) key = adapter w)
  ∧ (∀ k, _peek (_del (adapter w) key) k = _peek (adapter w) k)
  ∧ _keys (_del (adapter w) key) = _keys (adapter w)
  ∧ (∀ item,
       JsObject.own (_items (adapter w)) !! key = Some item →
       JsObject.replaced (_shards (adapter w)) = false →
       key ∉ JsObject.members →
       ∃ w2, _get w' key = Some (w2, Js.Ok (Stored item, Writable key))).
Proof.
  intros w'. split; [|split; [|split; [|split]]].
  - intros shard Hshard Hrs. unfold _size. simpl. rewrite Hrs.
    eexists. split; [done|].
    rewrite (shardBytes_delete w key shard Hshard). f_equal.
    unfold shardBytes. simpl. lia.
  - intros Hnone. destruct w as [[its [sh rs]] ? ?]. simpl in *.
    unfold _del, JsObject.remove. simpl. by rewrite delete_id.
  - done.
  - done.
  - intros item Hitem Hrs Hmember.
    assert (Hkey : key ≠ "__proto__").
    { intros ->. apply Hmember, proto_is_member. }
    unfold _get, stream_for. simpl.
    destruct (String.eqb_spec key "__proto__"); [done|].
    rewrite (get_own _ _ _ Hitem).
    rewrite get_not_own; simpl; [|apply lookup_delete_eq|done].
    rewrite bool_decide_eq_false_2 by done. by eexists.
Qed.

End RAMFacts.

Section RAMWitnesses.
Import Storage RAMStreams.

Lemma plain_keys (steps : list (Step unit string)) :
  forallb (λ s, negb (String.eqb (step_key s) "__proto__")) steps = true →
  Forall (λ s, step_key s ≠ "__proto__") steps.
Proof.
  induction steps as [|s steps IH]; simpl; [by constructor|].
  intros [Hs Hrest]%andb_prop. constructor; [|by apply IH].
  intros Heq. rewrite Heq in Hs. discriminate.
Qed.

Lemma no_member (key : string) :
  bool_decide (key ∈ JsObject.members) = false → key ∉ JsObject.members.
Proof. apply bool_decide_eq_false_1. Qed.

(** The item put last is what [_peek] hands back, a key never put is not
    found, and ['constructor'] yields the inherited member. *)
Lemma peek_returns_last_put_witness :
  ∃ w writables,
    run [DoPut "k1" 1%nat; DoGet "k1"; DoWrite "k1" "he"; DoDel "k1";
         DoPut "k1" 2%nat]
    = Some (w, writables)
    ∧ _peek (adapter w) "k1" = Some (Js.Ok (Stored 2%nat))
    ∧ _peek (adapter w) "k3" = Some (Js.Throw "Shard data not found")
    ∧ _peek (adapter w) "constructor"
      = Some (Js.Ok (Builtin "constructor")).
Proof.
  assert (Hkeys : Forall (λ s : Step nat string, step_key s ≠ "__proto__")
            [DoPut "k1" 1%nat; DoGet "k1"; DoWrite "k1" "he"; DoDel "k1";
             DoPut "k1" 2%nat]).
  { repeat (constructor; [discriminate|]). constructor. }
  destruct (peek_returns_last_put _ Hkeys) as (w & ws & Hrun & Hpeek).
  exists w, ws. split; [exact Hrun|].
  split; [exact (Hpeek "k1")|]. split; [exact (Hpeek "k3")|].
  exact (Hpeek "constructor").
Defined.

(** An item is put, its writable fetched and two chunks written; a
    second item is put and left without shard. *)
Lemma get_classifies_keys_witness :
  ∃ w writables,
    run [DoPut "k1" tt; DoGet "k1"; DoWrite "k1" "he";
         DoWrite "k1" "llo"; DoPut "k2" tt]
    = Some (w, writables)
    ∧ (∃ w', _get w "k2" = Some (w', Js.Ok (Stored tt, Writable "k2")))
    ∧ _get w "k3" = Some (w, Js.Throw "Shard data not found").
Proof.
  assert (Hkeys : Forall (λ s : Step unit string, step_key s ≠ "__proto__")
            [DoPut "k1" tt; DoGet "k1"; DoWrite "k1" "he";
             DoWrite "k1" "llo"; DoPut "k2" tt])
    by (apply plain_keys; reflexivity).
  assert (Hk2 : "k2" ∉ JsObject.members) by (apply no_member; reflexivity).
  assert (Hk3 : "k3" ∉ JsObject.members) by (apply no_member; reflexivity).
  destruct (get_classifies_keys _ "k2" Hkeys Hk2)
    as (w & ws & Hrun & _ & Hwritable & _).
  destruct (get_classifies_keys _ "k3" Hkeys Hk3)
    as (w3 & ws3 & Hrun3 & _ & _ & Hmissing).
  rewrite Hrun in Hrun3. injection Hrun3 as <- <-.
  exists w, ws. split; [exact Hrun|].
  vm_compute in Hrun. injection Hrun as <- <-.
  split; [apply (Hwritable tt); reflexivity|].
  apply Hmissing. reflexivity.
Defined.

(** "he" then "llo" written under a key: "llo" is what comes back. *)
Lemma written_shard_is_last_chunk_witness :
  let w := with_adapter (fresh (Shard := string))
             (_put create "k1" tt) in
  ∃ w1,
    _get w "k1" = Some (w1, Js.Ok (Stored tt, Writable "k1"))
    ∧ let w' := foldl (λ w data, write w "k1" data) w1 (["he"] ++ ["llo"]) in
      (∃ w2, _get w' "k1"
             = Some (w2, Js.Ok (Stored tt, Readable "k1" false)))
      ∧ read w' "k1" false = Some (PushData "llo", true).
Proof.
  intros w.
  exists (assign w (Stored tt) (Writable "k1")).
  assert (Hget : _get w "k1"
                 = Some (assign w (Stored tt) (Writable "k1"),
                         Js.Ok (Stored tt, Writable "k1")))
    by reflexivity.
  split; [exact Hget|].
  destruct (written_shard_is_last_chunk w _ "k1" (Stored tt) ["he"] "llo"
              Hget) as (Hreadable & Hread & _).
  split; [exact Hreadable | exact Hread].
Defined.

(** Deleting a five-byte shard takes five bytes off the size and leaves
    the item, for which a writable is handed out again. *)
Lemma del_frees_shard_only_witness :
  let w := write (with_adapter (fresh (Shard := string))
                    (_put create "k1" tt)) "k1" "hello" in
  let w' := with_adapter w (_del (adapter w) "k1") in
  _size String.length (λ _ _, 2%nat) w' = Some 2%nat
  ∧ _size String.length (λ _ _, 2%nat) w = Some 7%nat
  ∧ ∃ w2, _get w' "k1" = Some (w2, Js.Ok (Stored tt, Writable "k1")).
Proof.
  intros w w'.
  destruct (del_frees_shard_only String.length (λ _ _, 2%nat) w "k1")
    as (Hsize & _ & _ & _ & Hget).
  assert (Hshard : JsObject.own (_shards (adapter w)) !! "k1"
                   = Some "hello") by reflexivity.
  assert (Hitem : JsObject.own (_items (adapter w)) !! "k1" = Some tt)
    by reflexivity.
  assert (Hrs : JsObject.replaced (_shards (adapter w)) = false)
    by reflexivity.
  assert (Hk : "k1" ∉ JsObject.members) by (apply no_member; reflexivity).
  destruct (Hsize "hello" Hshard Hrs) as (n & Hafter & Hbefore).
  fold w' in Hafter.
  assert (Hn : _size String.length (λ _ _, 2%nat) w' = Some 2%nat)
    by reflexivity.
  rewrite Hn in Hafter. injection Hafter as <-.
  split; [exact Hn|]. split; [exact Hbefore|].
  exact (Hget tt Hitem Hrs Hk).
Defined.

End RAMWitnesses.


(** ** UploadState.cleanup *)

Section CleanupFacts.
Import UploadState.

Lemma cleanup_removable (cleanQueue : list string)
    (fs : gmap string Entry) :
  Forall (removable fs) cleanQueue →
  ∃ fs',
    cleanup cleanQueue fs = (fs', None)
    ∧ ∀ path,
        fs' !! path
        = if bool_decide (path ∈ cleanQueue) then None else fs !! path.
Proof.
  revert fs. induction cleanQueue as [|p q IH]; intros fs Hall.
  - exists fs. split; [done|]. intros path.
    rewrite bool_decide_eq_false_2; [done|]. apply not_elem_of_nil.
  - apply Forall_cons in Hall as [Hp Hq].
    assert (Hq' : Forall (removable (delete p fs)) q).
    { eapply Forall_impl; [exact Hq|]. intros x Hx e.
      destruct (decide (x = p)) as [->|Hne].
      - by rewrite lookup_delete_eq.
      - rewrite lookup_delete_ne by done. apply Hx. }
    destruct (IH (delete p fs) Hq') as (fs' & Hrun & Hlook).
    exists fs'. split.
    + simpl. unfold existsSync, unlinkSync.
      destruct (fs !! p) as [[|e]|] eqn:Hfs.
      * rewrite bool_decide_eq_true_2 by by eexists. done.
      * by destruct (Hp e).
      * rewrite bool_decide_eq_false_2 by by intros [? ?].
        by rewrite <- (delete_id fs p Hfs) at 1.
    + intros path. rewrite Hlook.
      destruct (decide (path = p)) as [->|Hne].
      * rewrite lookup_delete_eq.
        rewrite (bool_decide_eq_true_2 (p ∈ p :: q)) by apply list_elem_of_here.
        by destruct (bool_decide (p ∈ q)).
      * rewrite lookup_delete_ne by done.
        destruct (bool_decide_reflect (path ∈ q)) as [Hin|Hnot].
        -- rewrite bool_decide_eq_true_2; [done|].
           by apply elem_of_cons; right.
        -- rewrite bool_decide_eq_false_2; [done|].
           by intros [?|?]%elem_of_cons.
Qed.

Lemma cleanup_app (pre rest : list string) (fs : gmap string Entry) :
  cleanup (pre ++ rest) fs
  = match cleanup pre fs with
    | (fs', None) => cleanup rest fs'
    | thrown => thrown
    end.
Proof.
  revert fs. induction pre as [|p pre IH]; intros fs; simpl; [done|].
  destruct (existsSync fs p); [|apply IH].
  destruct (unlinkSync fs p); [apply IH | done].
Qed.

(** X15.  [cleanup] unlinks the queued paths in order and skips those
    that do not exist (never created, gone already, or queued twice).
    When every queued path that exists can be unlinked, it returns with
    exactly the queued paths removed and every other path in place.
    When it meets a path that exists and cannot be unlinked (a
    directory, say), the error of [fs.unlinkSync] leaves [cleanup]: the
    paths queued before it are removed, everything else stays, the
    paths queued after it included. *)
Theorem cleanup_removes_queued_files (cleanQueue : list string)
    (fs : gmap string Entry) :
  (Forall (removable fs) cleanQueue →
   ∃ fs',
     cleanup cleanQueue fs = (fs', None)
     ∧ ∀ path,
         fs' !! path
         = if bool_decide (path ∈ cleanQueue) then None else fs !! path)
  ∧ (∀ pre p post error,
       cleanQueue = pre ++ p :: post →
       Forall (removable fs) pre →
       fs !! p = Some (Blocked error) →
       ∃ fs',
         cleanup cleanQueue fs = (fs', Some error)
         ∧ ∀ path,
             fs' !! path
             = if bool_decide (path ∈ pre) then None else fs !! path).
Proof.
  split; [apply cleanup_removable|].
  intros pre p post error -> Hpre Hp.
  destruct (cleanup_removable pre fs Hpre) as (fs' & Hrun & Hlook).
  exists fs'. split; [|exact Hlook].
  rewrite cleanup_app, Hrun. simpl.
  assert (Hp' : fs' !! p = Some (Blocked error)).
  { rewrite Hlook. destruct (bool_decide_reflect (p ∈ pre)) as [Hin|]; [|done].
    rewrite Forall_forall in Hpre. by destruct (Hpre p Hin error). }
  unfold existsSync, unlinkSync. rewrite Hp'.
  by rewrite bool_decide_eq_true_2 by by eexists.
Qed.

End CleanupFacts.

Section CleanupWitnesses.
Import UploadState.

Lemma removable_file (fs : gmap string Entry) (path : string) :
  match fs !! path with Some (Blocked _) => False | _ => True end →
  removable fs path.
Proof. intros Hfile e He. by rewrite He in Hfile. Qed.

(** Two temporary files, one of them queued twice, and a path that was
    never created; then the same queue with a directory in it. *)
Lemma cleanup_removes_queued_files_witness :
  (∃ fs',
     cleanup ["/tmp/shard-1"; "/tmp/gone"; "/tmp/shard-2"; "/tmp/shard-1"]
       Fixtures.tmp_files
     = (fs', None)
     ∧ fs' !! "/tmp/shard-1" = None ∧ fs' !! "/tmp/shard-2" = None
     ∧ fs' !! "/tmp/keep" = Some File)
  ∧ (∃ fs',
       cleanup ["/tmp/shard-1"; "/tmp/dir"; "/tmp/shard-2"]
         Fixtures.tmp_files
       = (fs', Some "EISDIR: illegal operation on a directory")
       ∧ fs' !! "/tmp/shard-1" = None
       ∧ fs' !! "/tmp/shard-2" = Some File).
Proof.
  split.
  - assert (Hall : Forall (removable Fixtures.tmp_files)
                     ["/tmp/shard-1"; "/tmp/gone"; "/tmp/shard-2";
                      "/tmp/shard-1"]).
    { repeat (constructor; [by apply removable_file|]). constructor. }
    destruct (proj1 (cleanup_removes_queued_files _ _) Hall)
      as (fs' & Hrun & Hlook).
    exists fs'. split; [exact Hrun|].
    split; [exact (Hlook "/tmp/shard-1")|].
    split; [exact (Hlook "/tmp/shard-2") | exact (Hlook "/tmp/keep")].
  - assert (Hpre : Forall (removable Fixtures.tmp_files) ["/tmp/shard-1"]).
    { repeat (constructor; [by apply removable_file|]). constructor. }
    destruct (proj2 (cleanup_removes_queued_files
                       ["/tmp/shard-1"; "/tmp/dir"; "/tmp/shard-2"]
                       Fixtures.tmp_files)
                ["/tmp/shard-1"] "/tmp/dir" ["/tmp/shard-2"]
                "EISDIR: illegal operation on a directory"
                eq_refl Hpre eq_refl)
      as (fs' & Hrun & Hlook).
    exists fs'. split; [exact Hrun|].
    split; [exact (Hlook "/tmp/shard-1") | exact (Hlook "/tmp/shard-2")].
Defined.

End CleanupWitnesses.

(** ** Opening the transport *)

Section OpenFacts.
Import Utils TransportOpen.
Context `{IpRanges}.
Context (portMapping : Z → option string)
        (externalIp : Js.result string)
        (getPort : Js.result Z).

Abbreviation open := (_open portMapping externalIp getPort).

(** X16.  What [_open] leaves behind.  A node bound to a public address,
    or told not to forward, is marked public and its contact is not
    touched.  Otherwise it is marked public only when the port mapping
    succeeded and the NAT device reported an address that is not
    private; the contact then advertises that address, and a port of its
    own that was 0 becomes the port that was mapped.  When traversal
    fails the node is marked not public and its contact is unchanged.
    The node id and protocol never change. *)
Theorem open_marks_public (t : T) :
  (isPublic (address (_contact t)) = true ∨ _noforward t = true →
   _isPublic (open t) = Some true ∧ _contact (open t) = _contact t)
  ∧ (isPublic (address (_contact t)) = false → _noforward t = false →
     (_isPublic (open t) = Some false ∧ _contact (open t) = _contact t)
     ∨ (∃ wanip mapped,
          externalIp = Js.Ok wanip ∧ isPrivate wanip = false
          ∧ portMapping mapped = None
          ∧ _isPublic (open t) = Some true
          ∧ address (_contact (open t))
            = or_string wanip (address (_contact t))
          ∧ (port (_contact t) ≠ 0%Z →
             mapped = port (_contact t)
             ∧ port (_contact (open t)) = port (_contact t))
          ∧ (port (_contact t) = 0%Z →
             getPort = Js.Ok mapped
             ∧ port (_contact (open t)) = mapped)))
  ∧ nodeID (_contact (open t)) = nodeID (_contact t)
  ∧ protocol (_contact (open t)) = protocol (_contact t).
Proof.
  unfold _open, _forwardPort, _getPort, createPortMapping.
  split; [|split].
  - intros Hpub.
    destruct (isPublic _), (_noforward t); simpl; try done.
    by destruct Hpub.
  - intros -> ->. simpl.
    destruct (Z.eqb_spec (port (_contact t)) 0) as [Hzero|Hport]; simpl.
    + destruct getPort as [mapped|e]; [|by left].
      destruct (portMapping mapped) eqn:Hmap; [by left|].
      destruct externalIp as [wanip|e]; [|by left].
      destruct (isPrivate wanip) eqn:Hpriv; [by left|].
      right. exists wanip, mapped. simpl.
      repeat split; try done.
      unfold or_number. rewrite Hzero.
      by destruct (Z.eqb_spec mapped 0).
    + destruct (portMapping (port (_contact t))) eqn:Hmap; [by left|].
      destruct externalIp as [wanip|e]; [|by left].
      destruct (isPrivate wanip) eqn:Hpriv; [by left|].
      right. exists wanip, (port (_contact t)). simpl.
      repeat split; try done.
      unfold or_number. by destruct (Z.eqb_spec (port (_contact t)) 0).
  - destruct (isPublic _ || _noforward t); [done|].
    destruct (negb _); [|destruct getPort; [|done]];
      destruct (portMapping _); try done;
      destruct externalIp; try done;
      by destruct (isPrivate _).
Qed.

End OpenFacts.

(** A node on 192.168.1.7 with no port of its own: the finder gives port
    4123, the NAT device maps it and reports 104.200.143.243. *)
Lemma open_marks_public_witness :
  let t' := @TransportOpen._open Fixtures.ranges (λ _, None)
              (Js.Ok "104.200.143.243") (Js.Ok 4123%Z)
              Fixtures.behind_nat in
  TransportOpen._isPublic t' = Some true
  ∧ Utils.address (TransportOpen._contact t') = "104.200.143.243"
  ∧ Utils.port (TransportOpen._contact t') = 4123%Z
  ∧ Utils.nodeID (TransportOpen._contact t')
    = Utils.nodeID (TransportOpen._contact Fixtures.behind_nat).
Proof.
  intros t'.
  destruct (@open_marks_public Fixtures.ranges (λ _, None)
              (Js.Ok "104.200.143.243") (Js.Ok 4123%Z)
              Fixtures.behind_nat) as (_ & Hnat & Hid & _).
  destruct (Hnat eq_refl eq_refl)
    as [[Hno _] | (wanip & mapped & Hip & _ & _ & Hpub & Haddr & _ & Hport)].
  - discriminate Hno.
  - injection Hip as <-. destruct (Hport eq_refl) as [Hgot Hp].
    injection Hgot as <-.
    split; [exact Hpub|]. split; [exact Haddr|]. split; [exact Hp | exact Hid].
Defined.
